(** * verify-api.py: frontend/backend API consistency check

    A shallow embedding of [src/verify-api.py] and the properties of its
    path normaliser, its two extractors and its consistency report.

    Python values are modelled as follows.
    - [str] is a list of characters ([list ascii]); literals are written
      [txt "..."].
    - A [dict] with the keys ['method'] and ['path'] is the record
      [RouteRecord].
    - [defaultdict(list)] is an association list in insertion order.
    - [set()] of strings is a [gset str]; iterating it visits its
      [elements].
    - An uncaught exception is the [Raise] branch of [result].
    - [re] patterns are terms of [regex], run by a backtracking matcher.

    The file system enters through the arguments of [main]: the files
    that [glob] yields for the routes directory, in the order it yields
    them, and the frontend file, each with its text when it can be read.
    Of the printing, the route count, the inventory and the lines of the
    missing calls are modelled; [Report] keeps what the rest of the
    printed report is made of and the exit status. *)

From Stdlib Require Import Ascii String List Bool Arith Lia Permutation Sorted.
From stdpp Require Import base gmap.
Import ListNotations.

Local Open Scope list_scope.
Local Open Scope bool_scope.

(** ** Python strings *)

Definition str : Type := list ascii.

Definition txt (s : string) : str := list_ascii_of_string s.

(** [s.startswith(p)] *)
Fixpoint startswith (p s : str) : bool :=
  match p, s with
  | [], _ => true
  | _ :: _, [] => false
  | a :: p', b :: s' => Ascii.eqb a b && startswith p' s'
  end.

(** [sub in s]: some suffix of [s] starts with [sub]. *)
Fixpoint str_in (sub s : str) : bool :=
  startswith sub s ||
  match s with
  | [] => false
  | _ :: s' => str_in sub s'
  end.

(** [a == b] on strings. *)
Fixpoint str_eqb (a b : str) : bool :=
  match a, b with
  | [], [] => true
  | x :: a', y :: b' => Ascii.eqb x y && str_eqb a' b'
  | _, _ => false
  end.

(** [s.lstrip(chars)]: drop the leading characters that are in [chars]. *)
Fixpoint lstrip (chars s : str) : str :=
  match s with
  | [] => []
  | a :: s' => if existsb (Ascii.eqb a) chars then lstrip chars s' else s
  end.

(** [c.isspace()] for the characters below 256. *)
Definition isspace (c : ascii) : bool :=
  let n := nat_of_ascii c in
  ((9 <=? n) && (n <=? 13)) || ((28 <=? n) && (n <=? 32))
  || (n =? 133) || (n =? 160).

Fixpoint lstrip_ws (s : str) : str :=
  match s with
  | [] => []
  | a :: s' => if isspace a then lstrip_ws s' else s
  end.

(** [s.strip()]: drop whitespace at both ends. *)
Definition strip (s : str) : str := rev (lstrip_ws (rev (lstrip_ws s))).

(** [s.upper()] on the letters a-z, the only ones the method names have. *)
Definition upper_char (c : ascii) : ascii :=
  let n := nat_of_ascii c in
  if (97 <=? n) && (n <=? 122) then ascii_of_nat (n - 32) else c.

Definition upper (s : str) : str := map upper_char s.

(** [s.split(sep, 1)] for a one-character separator: the text before the
    first [sep] and the text after it, or [s] alone when there is none. *)
Fixpoint split1 (sep : ascii) (s : str) : list str :=
  match s with
  | [] => [[]]
  | a :: s' =>
      if Ascii.eqb a sep then [[]; s']
      else match split1 sep s' with
           | hd :: tl => (a :: hd) :: tl
           | [] => [[a]]
           end
  end.

(** ** Scanning a text for non-overlapping matches

    [str.replace], [re.sub] and [re.findall] walk the text from left to
    right: where the matcher succeeds with a match of [n] characters the
    match is consumed and the scan resumes behind it, elsewhere one
    character is passed over.  [skip] counts the characters of the current
    match that are still to be consumed.  Every matcher of the program
    needs at least one character (lemmas [re_match_nil] and [lit_proper]),
    so nothing is tried at the end of the text. *)

Section Scan.
Context {A : Type}.
(** The matcher gives the match's value and its length. *)
Variable m : str -> option (A * nat).

Fixpoint finditer_from (pos skip : nat) (s : str) : list (nat * A) :=
  match s with
  | [] => []
  | _ :: s' =>
      match skip with
      | S k => finditer_from (S pos) k s'
      | O =>
          match m s with
          | Some (v, n) => (pos, v) :: finditer_from (S pos) (n - 1) s'
          | None => finditer_from (S pos) 0 s'
          end
      end
  end.

(** Matches with their start offsets, in the order found. *)
Definition finditer (s : str) : list (nat * A) := finditer_from 0 0 s.

Definition findall (s : str) : list A := map snd (finditer s).

Fixpoint sub_from (repl : str) (skip : nat) (s : str) : str :=
  match s with
  | [] => []
  | a :: s' =>
      match skip with
      | S k => sub_from repl k s'
      | O =>
          match m s with
          | Some (_, n) => repl ++ sub_from repl (n - 1) s'
          | None => a :: sub_from repl 0 s'
          end
      end
  end.

(** Every match replaced by [repl]. *)
Definition gsub (repl s : str) : str := sub_from repl 0 s.

(** Does the matcher succeed at some offset of [s]? *)
Fixpoint has_match (s : str) : bool :=
  match s with
  | [] => false
  | _ :: s' => match m s with Some _ => true | None => has_match s' end
  end.
End Scan.

(** [s.replace(old, new)] for a non-empty [old]: the matcher finds [old]
    itself. *)
Definition lit_match (old s : str) : option (unit * nat) :=
  if startswith old s then Some (tt, length old) else None.

Definition replace (old new s : str) : str := gsub (lit_match old) new s.

(** ** Exceptions *)

Inductive exn : Type := OSError | ValueError.

Inductive result (A : Type) : Type :=
| Ok (a : A)
| Raise (e : exn).
Arguments Ok {A} a.
Arguments Raise {A} e.

Definition bind {A B : Type} (c : result A) (k : A -> result B) : result B :=
  match c with
  | Ok a => k a
  | Raise e => Raise e
  end.

Notation "'do' x <- c ; k" := (bind c (fun x => k))
  (at level 10, x name, c at level 100, k at level 200).
Notation "'do' ' p <- c ; k" := (bind c (fun x => let 'p := x in k))
  (at level 10, p pattern, c at level 100, k at level 200).

(** A [for] loop over [l] whose body updates the loop state or raises. *)
Fixpoint for_each {A S : Type} (l : list A) (body : A -> S -> result S)
    (st : S) : result S :=
  match l with
  | [] => Ok st
  | x :: l' => do st' <- body x st; for_each l' body st'
  end.

(** [a, b = t] *)
Definition unpack2 (t : list str) : result (str * str) :=
  match t with
  | [a; b] => Ok (a, b)
  | _ => Raise ValueError
  end.

(** ** Regular expressions

    The fragment of [re] the program uses: literal text, alternation,
    [[^c]+], capturing groups and concatenation.  Groups are neither
    nested nor placed under an alternation. *)

Inductive regex : Type :=
| Lit (l : str)
| Or (r1 r2 : regex)
| NotPlus (c : ascii)
| Group (r : regex)
| Seq (r1 r2 : regex).

Section Matcher.
Context {R : Type}.

(** [[^c]*] followed by [k], longest run first. *)
Fixpoint star_not (c : ascii) (k : str -> option R) (s : str) : option R :=
  match s with
  | [] => k s
  | a :: s' =>
      if Ascii.eqb a c then k s
      else match star_not c k s' with
           | Some x => Some x
           | None => k s
           end
  end.

Definition plus_not (c : ascii) (k : str -> option R) (s : str) : option R :=
  match s with
  | [] => None
  | a :: s' => if Ascii.eqb a c then None else star_not c k s'
  end.

(** Backtracking matcher: [k] is run on the captures so far and the
    rest of the text; the first alternative on which it succeeds wins. *)
Fixpoint rm (r : regex) (caps : list str) (s : str)
    (k : list str -> str -> option R) : option R :=
  match r with
  | Lit l => if startswith l s then k caps (skipn (length l) s) else None
  | Or r1 r2 =>
      match rm r1 caps s k with
      | Some x => Some x
      | None => rm r2 caps s k
      end
  | NotPlus c => plus_not c (k caps) s
  | Group r1 =>
      rm r1 caps s
        (fun caps' s' => k (caps' ++ [firstn (length s - length s') s]) s')
  | Seq r1 r2 => rm r1 caps s (fun caps' s' => rm r2 caps' s' k)
  end.
End Matcher.

(** A match at the start of [s]: its groups and its length. *)
Definition re_match (r : regex) (s : str) : option (list str * nat) :=
  rm r [] s (fun caps rest => Some (caps, length s - length rest)).

(** [re.findall(r, s)] and [re.sub(r, repl, s)] *)
Definition re_findall (r : regex) (s : str) : list (list str) :=
  findall (re_match r) s.

Definition re_sub (r : regex) (repl s : str) : str :=
  gsub (re_match r) repl s.

(** The patterns [r1 r2 ... rn] and [l1|l2|...|ln]. *)
Fixpoint cat (rs : list regex) : regex :=
  match rs with
  | [] => Lit []
  | [r] => r
  | r :: rs' => Seq r (cat rs')
  end.

Fixpoint alt (ls : list str) : regex :=
  match ls with
  | [] => Lit []
  | [l] => Lit l
  | l :: ls' => Or (Lit l) (alt ls')
  end.

(** ** The program *)

Record RouteRecord : Type := { method : str; path : str }.

(** [routes = defaultdict(list)]: groups in insertion order. *)
Definition groups : Type := list (str * list RouteRecord).

(** [routes[key].append(r)] *)
Fixpoint group_append (key : str) (r : RouteRecord) (routes : groups)
    : groups :=
  match routes with
  | [] => [(key, [r])]
  | (k, v) :: routes' =>
      if str_eqb k key then (k, v ++ [r]) :: routes'
      else (k, v) :: group_append key r routes'
  end.

(** A file as [glob] yields it: its name and, when [open] and [read]
    succeed, its text. *)
Record file : Type := { name : str; text : option str }.

Definition read (t : option str) : result str :=
  match t with
  | Some content => Ok content
  | None => Raise OSError
  end.

(** [Path(name).stem]: the name without its last suffix. *)
Fixpoint rfind_dot (s : str) : option nat :=
  match s with
  | [] => None
  | a :: s' =>
      match rfind_dot s' with
      | Some i => Some (S i)
      | None => if Ascii.eqb a "."%char then Some 0 else None
      end
  end.

Definition stem (nm : str) : str :=
  match rfind_dot nm with
  | Some i => if (0 <? i) && (S i <? length nm) then firstn i nm else nm
  | None => nm
  end.

Definition dq : ascii := "034"%char.
Definition sq : ascii := "039"%char.

(** [(get|post|put|delete|patch)] *)
Definition methods : regex :=
  Group (alt [txt "get"; txt "post"; txt "put"; txt "delete"; txt "patch"]).

Definition backend_patterns : list regex :=
  [ cat [Lit (txt "router."); methods; Lit (txt "(" ++ [sq]);
         Group (NotPlus sq); Lit [sq]];
    cat [Lit (txt "router."); methods; Lit (txt "(" ++ [dq]);
         Group (NotPlus dq); Lit [dq]] ].

Definition extract_backend_routes (routes_dir : list file) : result groups :=
  for_each routes_dir (fun route_file routes =>
    do content <- read (text route_file);
    for_each backend_patterns (fun pattern routes =>
      let matches := re_findall pattern content in
      for_each matches (fun t routes =>
        do '(method, path) <- unpack2 t;
        let path := strip path in
        Ok (group_append (stem (name route_file))
              {| method := upper method; path := path |} routes))
        routes)
      routes)
    [].

Definition frontend_patterns : list regex :=
  [ cat [Lit (txt "this.client."); methods; Lit (txt "<");
         NotPlus ">"%char; Lit (txt ">(" ++ [sq]);
         Group (NotPlus sq); Lit [sq]];
    cat [Lit (txt "this.client."); methods; Lit (txt "<");
         NotPlus ">"%char; Lit (txt ">(" ++ [dq]);
         Group (NotPlus dq); Lit [dq]];
    cat [Lit (txt "this.client."); methods; Lit (txt "(" ++ [sq]);
         Group (NotPlus sq); Lit [sq]];
    cat [Lit (txt "this.client."); methods; Lit (txt "(" ++ [dq]);
         Group (NotPlus dq); Lit [dq]] ].

Definition extract_frontend_api_calls (api_file : option str)
    : result (list RouteRecord) :=
  do content <- read api_file;
  for_each frontend_patterns (fun pattern api_calls =>
    let matches := re_findall pattern content in
    for_each matches (fun t api_calls =>
      do '(method, path) <- unpack2 t;
      Ok (api_calls ++ [{| method := upper method; path := path |}]))
      api_calls)
    [].

(** [\$\{[^}]+\}] and [:[^/]+] *)
Definition re_template : regex :=
  cat [Lit (txt "${"); NotPlus "}"%char; Lit (txt "}")].
Definition re_colon : regex :=
  cat [Lit (txt ":"); NotPlus "/"%char].

Definition normalize_path (path : str) : str :=
  let path := replace (txt "/api/") (txt "/") path in
  let path := lstrip (txt "/") path in
  let path := re_sub re_template (txt ":id") path in
  let path := re_sub re_colon (txt ":id") path in
  path.

(** [f"{r['method']}:{normalize_path(r['path'])}"] *)
Definition route_key (r : RouteRecord) : str :=
  method r ++ txt ":" ++ normalize_path (path r).

(** The test of lines 126-132: is some key of [backend_set] equal to [key],
    or does one contain the other once [':id'] is taken out of the inner
    one? *)
Definition found_in (key : str) (backend_set : gset str) : bool :=
  existsb (fun backend_key =>
    str_eqb backend_key key ||
    (str_in (replace (txt ":id") [] backend_key) key ||
     str_in (replace (txt ":id") [] key) backend_key))
    (elements backend_set).

Definition v22_features : list (str * list str) :=
  [ (txt "TAKARA Boost",
      [ txt "POST:/investments/:id/boost/takara";
        txt "GET:/investments/:id/boost/takara" ]);
    (txt "Instant Sale",
      [ txt "PUT:/investments/:id/instant-sale";
        txt "POST:/investments/:id/instant-sale/execute";
        txt "GET:/investments/:id/instant-sale/price" ]) ].

Definition frontend_has (frontend_calls : list RouteRecord)
    (method0 normalized : str) : bool :=
  existsb (fun c =>
    str_in (normalize_path (path c)) normalized ||
    str_in normalized (normalize_path (path c)))
    (List.filter (fun c => str_eqb (method c) method0) frontend_calls).

Definition backend_has (backend_routes : groups)
    (method0 normalized : str) : bool :=
  existsb (fun r =>
    str_in normalized (normalize_path (path r)) ||
    str_in (normalize_path (path r)) normalized)
    (flat_map (fun g => List.filter (fun r => str_eqb (method r) method0) (snd g))
       backend_routes).

(** One line of the feature report: the expectation and its two verdicts. *)
Record Verdict : Type :=
  { expectation : str; in_frontend : bool; in_backend : bool }.

(** What a run reports: the calls listed as lacking a backend route, the
    feature verdicts in table order, and the exit status. *)
Record Report : Type :=
  { missing_backend : list RouteRecord;
    verdicts : list Verdict;
    exit_status : nat }.

(** Lines 94-99: the normalised keys of all backend routes. *)
Definition build_backend_set (backend_routes : groups) : gset str :=
  fold_left (fun set g =>
    fold_left (fun set route => {[ route_key route ]} ∪ set) (snd g) set)
    backend_routes ∅.

(** Lines 119-135: the frontend calls for which no backend key is found. *)
Definition find_missing_backend (frontend_calls : list RouteRecord)
    (backend_set : gset str) : list RouteRecord :=
  fold_left (fun missing call =>
    let key := route_key call in
    let found := found_in key backend_set in
    if negb found then missing ++ [call] else missing)
    frontend_calls [].

(** Lines 162-187: one expectation of the feature table.  The loop state
    is the failure flag and the verdicts printed so far. *)
Definition check_expectation (frontend_calls : list RouteRecord)
    (backend_routes : groups) (route : str) (st : bool * list Verdict)
    : result (bool * list Verdict) :=
  let '(issues_found, report) := st in
  do '(method0, path0) <- unpack2 (split1 ":"%char route);
  let normalized := normalize_path path0 in
  let fh := frontend_has frontend_calls method0 normalized in
  let bh := backend_has backend_routes method0 normalized in
  let issues_found := if negb (fh && bh) then true else issues_found in
  Ok (issues_found,
      report ++ [{| expectation := route;
                    in_frontend := fh; in_backend := bh |}]).

(** Lines 160-187 *)
Definition check_features (features : list (str * list str))
    (frontend_calls : list RouteRecord) (backend_routes : groups)
    (issues_found : bool) : result (bool * list Verdict) :=
  for_each features (fun feature st =>
    for_each (snd feature)
      (check_expectation frontend_calls backend_routes) st)
    (issues_found, []).

(** Lines 94-197 of [main], after the two extractions.  The set
    [frontend_set] of lines 101-105 is built and never read. *)
Definition report_of (backend_routes : groups)
    (frontend_calls : list RouteRecord) : result Report :=
  let backend_set := build_backend_set backend_routes in
  let issues_found := false in
  let missing_backend := find_missing_backend frontend_calls backend_set in
  let issues_found :=
    match missing_backend with
    | [] => issues_found
    | _ :: _ => true
    end in
  do '(issues_found, report) <-
    check_features v22_features frontend_calls backend_routes issues_found;
  Ok {| missing_backend := missing_backend;
        verdicts := report;
        exit_status := if negb issues_found then 0 else 1 |}.

(** [main], given the files [glob] yields for the routes directory, in
    the order it yields them, and the frontend file. *)
Definition main (routes_dir : list file) (api_file : option str)
    : result Report :=
  do backend_routes <- extract_backend_routes routes_dir;
  do frontend_calls <- extract_frontend_api_calls api_file;
  report_of backend_routes frontend_calls.

(** ** What the run prints

    Of the printed report, the counts of line 91, the inventory of
    lines 107-111 and the lines of the missing calls. *)

(** [f"{s:6}"]: [s] followed by spaces up to six characters. *)
Definition ljust (width : nat) (s : str) : str :=
  s ++ List.repeat " "%char (width - length s).

(** Line 111: the line printed for one route of a group. *)
Definition route_line (route : RouteRecord) : str :=
  txt "    " ++ ljust 6 (method route) ++ txt " " ++ path route.

(** Line 141: the line printed for one call without backend. *)
Definition missing_line (call : RouteRecord) : str :=
  txt "   " ++ ljust 6 (method call) ++ txt " " ++ path call.

(** Line 109: the line printed in front of a group. *)
Definition group_line (route_type : str) : str :=
  ["010"%char] ++ txt "  " ++ route_type ++ txt ":".

(** [a < b] on strings: by the first character that differs, a proper
    prefix first. *)
Fixpoint str_ltb (a b : str) : bool :=
  match a, b with
  | _, [] => false
  | [], _ :: _ => true
  | x :: a', y :: b' =>
      (nat_of_ascii x <? nat_of_ascii y)
      || ((nat_of_ascii x =? nat_of_ascii y) && str_ltb a' b')
  end.

(** [sorted(backend_routes.items())]: the groups by increasing key.  The
    keys of a dict differ, so the comparison of two items never gets to
    their lists. *)
Fixpoint insert_item (g : str * list RouteRecord) (l : groups) : groups :=
  match l with
  | [] => [g]
  | h :: t =>
      if str_ltb (fst h) (fst g) then h :: insert_item g t else g :: l
  end.

Definition sorted_items (routes : groups) : groups :=
  fold_right insert_item [] routes.

(** Lines 108-111: what the inventory loop prints, line by line. *)
Definition inventory_lines (backend_routes : groups) : list str :=
  flat_map (fun g => group_line (fst g) :: map route_line (snd g))
    (sorted_items backend_routes).

(** Line 91: [sum(len(r) for r in backend_routes.values())]. *)
Definition routes_found (backend_routes : groups) : nat :=
  list_sum (map (fun g => length (snd g)) backend_routes).

(** * Vocabulary of the statements *)

(** [u] occurs in [s]. *)
Definition substring (u s : str) : Prop :=
  exists pre post, s = pre ++ u ++ post.

(** A matcher is proper when its matches are non-empty and lie inside
    the text. *)
Definition proper {A : Type} (m : str -> option (A * nat)) : Prop :=
  forall s v n, m s = Some (v, n) -> 1 <= n <= length s.

(** ** Patterns *)

(** The longest prefix of [s] without [c], and what follows it. *)
Fixpoint span_not (c : ascii) (s : str) : str * str :=
  match s with
  | [] => ([], [])
  | a :: s' =>
      if Ascii.eqb a c then ([], s)
      else let (b, r) := span_not c s' in (a :: b, r)
  end.

(** The number of groups of a pattern. *)
Fixpoint ngroups (r : regex) : nat :=
  match r with
  | Lit _ | NotPlus _ => 0
  | Or r1 _ => ngroups r1
  | Group r1 => S (ngroups r1)
  | Seq r1 r2 => ngroups r1 + ngroups r2
  end.

(** The least length of a match. *)
Fixpoint minlen (r : regex) : nat :=
  match r with
  | Lit l => length l
  | NotPlus _ => 1
  | Or r1 r2 => Nat.min (minlen r1) (minlen r2)
  | Group r1 => minlen r1
  | Seq r1 r2 => minlen r1 + minlen r2
  end.

(** Both sides of every alternation have the same number of groups. *)
Fixpoint uniform (r : regex) : bool :=
  match r with
  | Lit _ | NotPlus _ => true
  | Or r1 r2 => uniform r1 && uniform r2 && (ngroups r1 =? ngroups r2)
  | Group r1 => uniform r1
  | Seq r1 r2 => uniform r1 && uniform r2
  end.

(** The shape of the six extraction patterns: two groups, at least one
    character. *)
Definition extraction_pattern (r : regex) : Prop :=
  uniform r = true /\ ngroups r = 2 /\ 1 <= minlen r.

(** What [re_template] matches, read off the text: ["${"], a run without
    ["}"] that is not empty, and the ["}"] behind it. *)
Definition template_at (s : str) : option (list str * nat) :=
  match s with
  | a :: b :: t =>
      if Ascii.eqb a "$" && Ascii.eqb b "{" then
        match span_not "}" t with
        | ((_ :: _) as run, _ :: _) => Some ([], 3 + length run)
        | _ => None
        end
      else None
  | _ => None
  end.

(** What [re_colon] matches: [":"] and the longest run without ["/"]
    behind it, when that is not empty. *)
Definition colon_at (s : str) : option (list str * nat) :=
  match s with
  | a :: t =>
      if Ascii.eqb a ":" then
        match span_not "/" t with
        | ((_ :: _) as run, _) => Some ([], 1 + length run)
        | _ => None
        end
      else None
  | _ => None
  end.

(** ** The steps of [normalize_path] *)

(** The first step, [path.replace('/api/', '/')], and the two
    substitutions. *)
Definition replace_api : str -> str := replace (txt "/api/") (txt "/").

Definition sub_template : str -> str := re_sub re_template (txt ":id").

Definition sub_colon : str -> str := re_sub re_colon (txt ":id").

(** The number of ["p"] in a text: no step of [normalize_path] adds one,
    and replacing ["/api/"] removes one. *)
Abbreviation count_p s := (count_occ ascii_dec s "p"%char).

(** ** Extraction *)

(** The matches of the patterns in the order the extractor loops visit
    them, each with the offset at which it starts. *)
Definition sites (patterns : list regex) (content : str)
    : list (nat * list str) :=
  flat_map (fun pattern => finditer (re_match pattern) content) patterns.

(** Matches listed by increasing offset. *)
Definition in_source_order {A : Type} (l : list (nat * A)) : Prop :=
  StronglySorted lt (map fst l).

(** No pattern of the list matches at any offset of the text. *)
Definition no_occurrence (patterns : list regex) (content : str) : bool :=
  forallb (fun pattern => negb (has_match (re_match pattern) content)) patterns.

(** The record the frontend loop builds from the groups of a match, and
    the one the backend loop builds. *)
Definition call_of (t : list str) : RouteRecord :=
  {| method := upper (nth 0 t []); path := nth 1 t [] |}.

Definition route_of (t : list str) : RouteRecord :=
  {| method := upper (nth 0 t []); path := strip (nth 1 t []) |}.

(** The routes one file declares, in the order the loops append them. *)
Definition file_records (content : str) : list RouteRecord :=
  map (fun site => route_of (snd site)) (sites backend_patterns content).

(** [routes[key].append(r)] for each record of a list. *)
Definition add_records (key : str) (records : list RouteRecord)
    (routes : groups) : groups :=
  fold_left (fun routes r => group_append key r routes) records routes.

Definition readable (f : file) : bool :=
  match text f with
  | Some _ => true
  | None => false
  end.

Definition content_of (f : file) : str :=
  match text f with
  | Some content => content
  | None => []
  end.

(** One round of the loop over the route files. *)
Definition add_file (routes : groups) (f : file) : groups :=
  add_records (stem (name f)) (file_records (content_of f)) routes.

(** [routes[key]] read without creating the group, and all the records
    of all the groups. *)
Fixpoint group_get (key : str) (routes : groups) : list RouteRecord :=
  match routes with
  | [] => []
  | (k, v) :: routes' => if str_eqb k key then v else group_get key routes'
  end.

Definition all_routes (routes : groups) : list RouteRecord :=
  flat_map snd routes.

(** ** The report *)

(** The calls the missing-backend check lists. *)
Definition missing_calls (frontend_calls : list RouteRecord)
    (backend_set : gset str) : list RouteRecord :=
  List.filter (fun call => negb (found_in (route_key call) backend_set))
    frontend_calls.

(** The verdict line of one expectation. *)
Definition verdict_of (frontend_calls : list RouteRecord)
    (backend_routes : groups) (route : str) : Verdict :=
  let t := split1 ":"%char route in
  let normalized := normalize_path (nth 1 t []) in
  {| expectation := route;
     in_frontend := frontend_has frontend_calls (nth 0 t []) normalized;
     in_backend := backend_has backend_routes (nth 0 t []) normalized |}.

Definition satisfied (v : Verdict) : bool := in_frontend v && in_backend v.

(** What [report_of] reports. *)
Definition expected_report (backend_routes : groups)
    (frontend_calls : list RouteRecord) : Report :=
  let missing :=
    missing_calls frontend_calls (build_backend_set backend_routes) in
  let report :=
    map (verdict_of frontend_calls backend_routes)
      (flat_map snd v22_features) in
  {| missing_backend := missing;
     verdicts := report;
     exit_status :=
       match missing with
       | [] => if forallb satisfied report then 0 else 1
       | _ :: _ => 1
       end |}.

(** ** Sample inputs *)

(** One route file and one client file with a single route. *)
Definition get_users : RouteRecord :=
  {| method := txt "GET"; path := txt "/users" |}.

Definition users_routes : file :=
  {| name := txt "users.routes.ts";
     text := Some (txt "router.get('/users', listUsers);") |}.

Definition users_api : str :=
  txt "listUsers() { return this.client.get('/users'); }".

(** Every route of the feature table, declared and called. *)
Definition investments_routes : file :=
  {| name := txt "investments.routes.ts";
     text := Some
       (txt "router.post('/investments/:id/boost/takara', boost); "
        ++ txt "router.get('/investments/:id/boost/takara', boostInfo); "
        ++ txt "router.put('/investments/:id/instant-sale', listForSale); "
        ++ txt "router.post('/investments/:id/instant-sale/execute', run); "
        ++ txt "router.get('/investments/:id/instant-sale/price', price);") |}.

Definition investments_api : str :=
  txt "this.client.post<Boost>('/investments/${id}/boost/takara', body); "
  ++ txt "this.client.get<Boost>('/investments/${id}/boost/takara'); "
  ++ txt "this.client.put('/investments/${id}/instant-sale', body); "
  ++ txt "this.client.post('/investments/${id}/instant-sale/execute'); "
  ++ txt "this.client.get<Price>('/investments/${id}/instant-sale/price');".

(** A client file that mixes calls with and without a type parameter, and
    a route file that mixes the two quotes. *)
Definition mixed_api : str :=
  txt "this.client.get('/a'); this.client.post<Item>('/b');".

Definition mixed_routes : file :=
  {| name := txt "mixed.routes.ts";
     text := Some (txt "router.get(" ++ [dq] ++ txt "/a" ++ [dq]
                   ++ txt ", list); router.post('/b', create);") |}.

(** Files in which no pattern occurs. *)
Definition plain_api : str :=
  txt "export const api = axios.create({ baseURL });".

Definition plain_routes : list file :=
  [ {| name := txt "index.routes.ts";
       text := Some (txt "const router = Router(); export default router;") |};
    {| name := txt "empty.routes.ts"; text := Some [] |} ].

(** A call with two parameters against a route with one. *)
Definition posts_call : RouteRecord :=
  {| method := txt "GET"; path := txt "/users/${userId}/posts/${postId}" |}.

Definition posts_routes : groups :=
  [ (txt "users.routes",
     [ {| method := txt "GET"; path := txt "/users/:id/posts" |} ]) ].

(** ** Extracted records, file names and printed lines *)

(** The names a method group matches and the methods the records carry. *)
Definition method_names : list str :=
  [txt "get"; txt "post"; txt "put"; txt "delete"; txt "patch"].

Definition http_methods : list str :=
  [txt "GET"; txt "POST"; txt "PUT"; txt "DELETE"; txt "PATCH"].

(** The groups of a match of an extraction pattern whose path is quoted
    by [q]: a method name, and a path that is not empty and has no [q]. *)
Definition groups_ok (q : ascii) (caps : list str) : Prop :=
  exists l run,
    caps = [l; run] /\ In l method_names /\ run <> [] /\ ~ In q run.

(** [s.endswith(suffix)] *)
Definition endswith (suffix s : str) : bool := startswith (rev suffix) (rev s).

(** What every extracted record looks like. *)
Definition http_method (r : RouteRecord) : Prop := In (method r) http_methods.

Definition quote_free (p : str) : Prop := ~ In sq p \/ ~ In dq p.

Definition trimmed (p : str) : Prop :=
  (forall a t, p = a :: t -> isspace a = false)
  /\ (forall a t, p = t ++ [a] -> isspace a = false).

(** The methods the feature table asks for. *)
Definition feature_methods : list str := [txt "POST"; txt "GET"; txt "PUT"].

(** A backend route whose path normalizes to the empty path, such as
    ['/'], and a call to anything with its method. *)
Definition root_routes : groups :=
  [ (txt "users.routes", [ {| method := txt "GET"; path := txt "/" |} ]) ].

Definition orders_call : RouteRecord :=
  {| method := txt "GET"; path := txt "/orders/${id}/items" |}.

(** What may follow a [":"] of a normalized path: nothing, ["/"], or
    ["id"] at the end or in front of ["/"]. *)
Definition after_colon (post : str) : Prop :=
  post = [] \/ startswith (txt "/") post = true
  \/ post = txt "id" \/ startswith (txt "id/") post = true.

Definition key_lt (g h : str * list RouteRecord) : Prop :=
  str_ltb (fst g) (fst h) = true.

(** * Properties *)

(** ** Strings *)

Lemma startswith_spec (p s : str) :
  startswith p s = true <-> exists t, s = p ++ t.
Proof.
  revert s; induction p as [|a p IH]; intros s; simpl.
  - split; [intros _; exists s; reflexivity | reflexivity].
  - destruct s as [|b s].
    + split; [discriminate | intros [t Ht]; discriminate].
    + rewrite andb_true_iff, IH, Ascii.eqb_eq. split.
      * intros [-> [t ->]]. exists t; reflexivity.
      * intros [t Ht]. injection Ht as -> ->. split; [reflexivity | exists t; reflexivity].
Qed.

Lemma startswith_skipn (p s : str) :
  startswith p s = true -> s = p ++ skipn (length p) s.
Proof.
  intros H. apply startswith_spec in H as [t ->].
  rewrite skipn_app, skipn_all, Nat.sub_diag. reflexivity.
Qed.

Lemma startswith_length (p s : str) :
  startswith p s = true -> length p <= length s.
Proof.
  intros H. apply startswith_spec in H as [t ->]. rewrite length_app. lia.
Qed.

Lemma str_in_spec (u s : str) : str_in u s = true <-> substring u s.
Proof.
  unfold substring. induction s as [|a s IH]; simpl.
  - rewrite orb_false_r, startswith_spec. split.
    + intros [t Ht]. exists [], t. exact Ht.
    + intros [pre [post H]]. destruct pre; [|discriminate].
      exists post. exact H.
  - rewrite orb_true_iff, IH, startswith_spec. split.
    + intros [[t Ht] | [pre [post H]]].
      * exists [], t. exact Ht.
      * exists (a :: pre), post. rewrite H. reflexivity.
    + intros [pre [post H]]. destruct pre as [|b pre].
      * left. exists post. exact H.
      * right. injection H as -> ->. exists pre, post. reflexivity.
Qed.

Lemma str_eqb_spec (a b : str) : str_eqb a b = true <-> a = b.
Proof.
  revert b; induction a as [|x a IH]; intros [|y b]; simpl;
    try (split; [discriminate | congruence]); try tauto.
  rewrite andb_true_iff, IH, Ascii.eqb_eq. split.
  - intros [-> ->]; reflexivity.
  - intros H; injection H as -> ->; auto.
Qed.

Lemma str_in_cons (u : str) (a : ascii) (s : str) :
  str_in u (a :: s) = startswith u (a :: s) || str_in u s.
Proof. reflexivity. Qed.

Lemma str_in_skipn (u s : str) (n : nat) :
  str_in u (skipn n s) = true -> str_in u s = true.
Proof.
  revert s; induction n as [|n IH]; intros s; [auto|].
  destruct s as [|a s]; [auto|]. simpl skipn. intros H.
  rewrite str_in_cons. apply IH in H. rewrite H. apply orb_true_r.
Qed.

Lemma str_in_false_skipn (u s : str) (n : nat) :
  str_in u s = false -> str_in u (skipn n s) = false.
Proof.
  intros H. destruct (str_in u (skipn n s)) eqn:E; [|reflexivity].
  apply str_in_skipn in E. congruence.
Qed.

Lemma lstrip_suffix (chars s : str) :
  exists n, lstrip chars s = skipn n s.
Proof.
  induction s as [|a s [n IH]]; simpl.
  - exists 0. reflexivity.
  - destruct (existsb _ chars).
    + exists (S n). exact IH.
    + exists 0. reflexivity.
Qed.

Lemma lstrip_head (c : ascii) (s : str) :
  startswith [c] (lstrip [c] s) = false.
Proof.
  induction s as [|a s IH]; simpl; [reflexivity|].
  rewrite orb_false_r. destruct (Ascii.eqb a c) eqn:E; [exact IH|].
  simpl. rewrite Ascii.eqb_sym, E. reflexivity.
Qed.

Lemma lstrip_id (c : ascii) (s : str) :
  startswith [c] s = false -> lstrip [c] s = s.
Proof.
  destruct s as [|a s]; simpl; [reflexivity|].
  rewrite andb_true_r, orb_false_r, Ascii.eqb_sym. intros ->. reflexivity.
Qed.

(** ** The scan *)

Section ScanFacts.
Context {A : Type}.
Variable m : str -> option (A * nat).

Lemma sub_from_skipn (repl : str) (k : nat) (s : str) :
  sub_from m repl k s = gsub m repl (skipn k s).
Proof.
  revert k; induction s as [|a s IH]; intros k.
  - destruct k; reflexivity.
  - destruct k as [|k]; [reflexivity|]. simpl. apply IH.
Qed.

Lemma finditer_from_skipn (pos k : nat) (s : str) :
  finditer_from m pos k s = finditer_from m (pos + k) 0 (skipn k s).
Proof.
  revert pos k; induction s as [|a s IH]; intros pos k.
  - destruct k; reflexivity.
  - destruct k as [|k]; simpl.
    + rewrite Nat.add_0_r. reflexivity.
    + rewrite IH. f_equal. lia.
Qed.

Lemma gsub_nil (repl : str) : gsub m repl [] = [].
Proof. reflexivity. Qed.

Lemma gsub_miss (repl : str) (a : ascii) (s : str) :
  m (a :: s) = None -> gsub m repl (a :: s) = a :: gsub m repl s.
Proof. unfold gsub; simpl. intros ->. reflexivity. Qed.

Lemma gsub_hit (repl : str) (s : str) (v : A) (n : nat) :
  m s = Some (v, n) -> 1 <= n <= length s ->
  gsub m repl s = repl ++ gsub m repl (skipn n s).
Proof.
  intros Hm Hn. destruct s as [|a s]; [simpl in Hn; lia|].
  unfold gsub at 1; simpl. rewrite Hm, sub_from_skipn.
  destruct n as [|n]; [lia|]. simpl. rewrite Nat.sub_0_r. reflexivity.
Qed.

Lemma finditer_from_miss (pos : nat) (a : ascii) (s : str) :
  m (a :: s) = None ->
  finditer_from m pos 0 (a :: s) = finditer_from m (S pos) 0 s.
Proof. simpl. intros ->. reflexivity. Qed.

Lemma finditer_from_hit (pos : nat) (s : str) (v : A) (n : nat) :
  m s = Some (v, n) -> 1 <= n <= length s ->
  finditer_from m pos 0 s = (pos, v) :: finditer_from m (pos + n) 0 (skipn n s).
Proof.
  intros Hm Hn. destruct s as [|a s]; [simpl in Hn; lia|].
  simpl. rewrite Hm, finditer_from_skipn.
  destruct n as [|n]; [lia|]. simpl. rewrite Nat.sub_0_r.
  do 2 f_equal. lia.
Qed.

Hypothesis Hproper : proper m.

(** Induction along the scan: over a character passed over, or over a
    whole match. *)
Lemma scan_ind (P : str -> Prop) :
  P [] ->
  (forall a s, m (a :: s) = None -> P s -> P (a :: s)) ->
  (forall s v n, m s = Some (v, n) -> 1 <= n <= length s ->
                 P (skipn n s) -> P s) ->
  forall s, P s.
Proof.
  intros Hnil Hmiss Hhit s.
  remember (length s) as len eqn:Hlen.
  revert s Hlen. induction len as [len IH] using lt_wf_ind. intros s Hlen.
  destruct s as [|a s]; [exact Hnil|].
  destruct (m (a :: s)) as [[v n]|] eqn:E.
  - pose proof (Hproper _ _ _ E) as Hn.
    apply (Hhit _ v n E Hn).
    apply (IH (length (skipn n (a :: s)))); [|reflexivity].
    rewrite length_skipn. simpl in *. lia.
  - apply Hmiss; [exact E|]. apply (IH (length s)); [|reflexivity].
    simpl in Hlen. lia.
Qed.

Lemma has_match_skipn (n : nat) (s : str) :
  has_match m s = false -> has_match m (skipn n s) = false.
Proof.
  revert s; induction n as [|n IH]; intros s H; [exact H|].
  destruct s as [|a s]; [reflexivity|]. simpl in *.
  destruct (m (a :: s)); [discriminate|]. apply IH, H.
Qed.

(** Without a match the text is left as it is, and nothing is found. *)
Lemma gsub_no_match (repl s : str) :
  has_match m s = false -> gsub m repl s = s.
Proof.
  induction s as [|a s IH]; [reflexivity|]. simpl.
  destruct (m (a :: s)) eqn:E; [discriminate|]. intros H.
  rewrite gsub_miss, IH by assumption. reflexivity.
Qed.

Lemma finditer_from_no_match (pos k : nat) (s : str) :
  has_match m s = false -> finditer_from m pos k s = [].
Proof.
  revert pos k; induction s as [|a s IH]; intros pos k; [reflexivity|].
  simpl. destruct (m (a :: s)) eqn:E; [discriminate|]. intros H.
  destruct k; apply IH, H.
Qed.

(** The offsets found are increasing. *)
Lemma finditer_from_lower (pos k : nat) (s : str) :
  Forall (fun x => pos <= fst x) (finditer_from m pos k s).
Proof.
  revert pos k; induction s as [|a s IH]; intros pos k; simpl.
  - constructor.
  - assert (H : forall k', Forall (fun x => pos <= fst x)
                             (finditer_from m (S pos) k' s)).
    { intros k'. eapply List.Forall_impl; [|apply IH]. simpl. intros; lia. }
    destruct k as [|k]; [|apply H].
    destruct (m (a :: s)) as [[v n]|]; [|apply H].
    constructor; [simpl; lia | apply H].
Qed.

Lemma finditer_from_sorted (pos k : nat) (s : str) :
  StronglySorted lt (map fst (finditer_from m pos k s)).
Proof.
  revert pos k; induction s as [|a s IH]; intros pos k; simpl.
  - constructor.
  - destruct k as [|k]; [|apply IH].
    destruct (m (a :: s)) as [[v n]|]; [|apply IH].
    simpl. constructor; [apply IH|].
    apply List.Forall_map. eapply List.Forall_impl; [|apply finditer_from_lower].
    simpl. intros; lia.
Qed.
End ScanFacts.

(** ** The matcher *)

Lemma span_not_app (c : ascii) (s : str) :
  s = fst (span_not c s) ++ snd (span_not c s).
Proof.
  induction s as [|a s IH]; simpl; [reflexivity|].
  destruct (Ascii.eqb a c); [reflexivity|].
  destruct (span_not c s) as [b r]; simpl in *. congruence.
Qed.

Lemma span_not_rest (c : ascii) (s : str) :
  snd (span_not c s) = [] \/ exists r, snd (span_not c s) = c :: r.
Proof.
  induction s as [|a s IH]; simpl; [left; reflexivity|].
  destruct (Ascii.eqb_spec a c) as [->|Hne].
  - right. exists s. reflexivity.
  - destruct (span_not c s) as [b r]; simpl in *. exact IH.
Qed.

Lemma span_not_length (c : ascii) (s : str) :
  length (snd (span_not c s)) = length s - length (fst (span_not c s)).
Proof.
  rewrite (span_not_app c s) at 2. rewrite length_app. lia.
Qed.

Section MatcherFacts.
Context {R : Type}.
Implicit Types k : str -> option R.

Lemma star_not_sound c k s x :
  star_not c k s = Some x ->
  exists s', length s' <= length s /\ k s' = Some x.
Proof.
  induction s as [|a s IH]; simpl.
  - intros H. exists []. auto.
  - destruct (Ascii.eqb a c).
    + intros H. exists (a :: s). auto.
    + destruct (star_not c k s) as [y|] eqn:E.
      * intros [= ->]. destruct (IH eq_refl) as [s' [Hl Hk]].
        exists s'. split; [simpl; lia | exact Hk].
      * intros H. exists (a :: s). auto.
Qed.

(** When [k] never fails, [[^c]*] keeps its longest run. *)
Lemma star_not_total c k s :
  (forall t, k t <> None) ->
  star_not c k s = k (snd (span_not c s)).
Proof.
  intros Hk. induction s as [|a s IH]; simpl; [reflexivity|].
  destruct (Ascii.eqb a c); [reflexivity|].
  rewrite IH. destruct (span_not c s) as [b r]; simpl.
  destruct (k r) eqn:E; [reflexivity|]. destruct (Hk r E).
Qed.

(** When [k] fails on every text that does not start with [c], giving
    back characters of the run cannot help. *)
Lemma star_not_then c k s :
  (forall a t, a <> c -> k (a :: t) = None) ->
  star_not c k s = k (snd (span_not c s)).
Proof.
  intros Hk. induction s as [|a s IH]; simpl; [reflexivity|].
  destruct (Ascii.eqb_spec a c) as [->|Hne]; [reflexivity|].
  rewrite IH. destruct (span_not c s) as [b r]; simpl.
  destruct (k r) eqn:E; [reflexivity|]. apply Hk, Hne.
Qed.
End MatcherFacts.

Lemma rm_sound {R : Type} (r : regex) :
  uniform r = true ->
  forall caps s (k : list str -> str -> option R) x,
    rm r caps s k = Some x ->
    exists caps' s',
      length caps' = length caps + ngroups r /\
      length s' + minlen r <= length s /\
      k caps' s' = Some x.
Proof.
  induction r as [l | r1 IH1 r2 IH2 | c | r1 IH1 | r1 IH1 r2 IH2];
    simpl; intros Hu caps s k x H.
  - destruct (startswith l s) eqn:E; [|discriminate].
    exists caps, (skipn (length l) s). split; [lia|]. split; [|exact H].
    apply startswith_length in E. rewrite length_skipn. lia.
  - apply andb_true_iff in Hu as [Hu Hn]. apply andb_true_iff in Hu as [Hu1 Hu2].
    apply Nat.eqb_eq in Hn.
    destruct (rm r1 caps s k) as [y|] eqn:E.
    + injection H as ->.
      destruct (IH1 Hu1 _ _ _ _ E) as (caps' & s' & Hc & Hl & Hk).
      exists caps', s'. split; [lia|]. split; [lia|assumption].
    + destruct (IH2 Hu2 _ _ _ _ H) as (caps' & s' & Hc & Hl & Hk).
      exists caps', s'. split; [lia|]. split; [lia|assumption].
  - unfold plus_not in H. destruct s as [|a s]; [discriminate|].
    destruct (Ascii.eqb a c); [discriminate|].
    apply star_not_sound in H as [s' [Hl Hk]].
    exists caps, s'. split; [lia|]. split; [simpl; lia|exact Hk].
  - destruct (IH1 Hu _ _ _ _ H) as (caps' & s' & Hc & Hl & Hk).
    exists (caps' ++ [firstn (length s - length s') s]), s'.
    rewrite length_app. simpl. split; [lia|]. split; [lia|assumption].
  - apply andb_true_iff in Hu as [Hu1 Hu2].
    destruct (IH1 Hu1 _ _ _ _ H) as (caps1 & s1 & Hc1 & Hl1 & H1).
    destruct (IH2 Hu2 _ _ _ _ H1) as (caps2 & s2 & Hc2 & Hl2 & H2).
    exists caps2, s2. split; [lia|]. split; [lia|assumption].
Qed.

Lemma re_match_sound (r : regex) (s : str) (caps : list str) (n : nat) :
  uniform r = true ->
  re_match r s = Some (caps, n) ->
  length caps = ngroups r /\ minlen r <= n <= length s.
Proof.
  intros Hu H. unfold re_match in H.
  apply rm_sound in H as (caps' & s' & Hc & Hl & H); [|exact Hu].
  injection H as -> <-. simpl in Hc. split; [exact Hc | lia].
Qed.

Lemma re_match_nil (r : regex) :
  uniform r = true -> 1 <= minlen r -> re_match r [] = None.
Proof.
  intros Hu Hl. destruct (re_match r []) as [[caps n]|] eqn:E; [|reflexivity].
  apply re_match_sound in E as [_ E]; [simpl in E; lia | exact Hu].
Qed.

Lemma re_match_proper (r : regex) :
  uniform r = true -> 1 <= minlen r -> proper (re_match r).
Proof.
  intros Hu Hl s caps n H. apply re_match_sound in H as [_ H]; [lia|exact Hu].
Qed.

Local Arguments Ascii.eqb : simpl never.

(** Decide the comparisons of two literal characters. *)
Ltac eqb_lit :=
  repeat match goal with
  | |- context [Ascii.eqb ?a ?b] =>
      let v := eval vm_compute in (Ascii.eqb a b) in
      lazymatch v with
      | true => change (Ascii.eqb a b) with true
      | false => change (Ascii.eqb a b) with false
      end
  end.

Lemma re_template_direct (s : str) : re_match re_template s = template_at s.
Proof.
  unfold re_match, re_template. simpl.
  destruct s as [|a [|b t]]; simpl.
  - reflexivity.
  - rewrite andb_false_r. reflexivity.
  - rewrite (Ascii.eqb_sym _ a), (Ascii.eqb_sym _ b), andb_true_r.
    destruct (Ascii.eqb a "$" && Ascii.eqb b "{"); [|reflexivity].
    unfold plus_not. destruct t as [|c t]; [reflexivity|]. simpl.
    destruct (Ascii.eqb_spec c "}") as [->|Hc]; [reflexivity|].
    rewrite star_not_then.
    + pose proof (span_not_rest "}" t) as Hr.
      pose proof (f_equal (@length _) (span_not_app "}" t)) as Hl.
      destruct (span_not "}" t) as [run rest]; simpl in *.
      destruct Hr as [->|[r ->]]; [reflexivity|]. simpl. eqb_lit. simpl.
      rewrite length_app in Hl. simpl in Hl. rewrite skipn_O. do 2 f_equal. lia.
    + intros x u Hx. simpl. rewrite (proj2 (Ascii.eqb_neq _ _)); [reflexivity|].
      congruence.
Qed.

Lemma re_colon_direct (s : str) : re_match re_colon s = colon_at s.
Proof.
  unfold re_match, re_colon. simpl.
  destruct s as [|a t]; simpl; [reflexivity|].
  rewrite (Ascii.eqb_sym _ a), andb_true_r.
  destruct (Ascii.eqb a ":"); [|reflexivity].
  unfold plus_not. destruct t as [|c t]; [reflexivity|]. simpl.
  destruct (Ascii.eqb_spec c "/") as [->|Hc]; [reflexivity|].
  rewrite star_not_total by discriminate.
  pose proof (f_equal (@length _) (span_not_app "/" t)) as Hl.
  destruct (span_not "/" t) as [run rest]; simpl in *.
  rewrite length_app in Hl. do 2 f_equal. lia.
Qed.

(** ** Replacing matches *)

Section GsubFacts.
Context {A : Type}.
Variable m : str -> option (A * nat).
Hypothesis Hproper : proper m.

Variable repl : str.

(** The result starts with the replacement, at a match, or with the
    first character of the text. *)
Lemma gsub_cons_cases (s : str) (d : ascii) (z : str) :
  gsub m repl s = d :: z ->
  (exists v n, m s = Some (v, n) /\ 1 <= n <= length s /\
               repl ++ gsub m repl (skipn n s) = d :: z) \/
  (exists s', s = d :: s' /\ m s = None /\ z = gsub m repl s').
Proof.
  destruct s as [|a s]; [discriminate|].
  destruct (m (a :: s)) as [[v n]|] eqn:E.
  - pose proof (Hproper _ _ _ E) as Hn.
    rewrite (gsub_hit m repl _ v n E Hn). intros H. left. eauto.
  - rewrite gsub_miss by exact E. intros [= -> <-]. right. eauto.
Qed.

Lemma gsub_In (c : ascii) (s : str) :
  In c (gsub m repl s) -> In c repl \/ In c s.
Proof.
  induction s as [| a s Hmiss IH | s v n Hhit Hn IH] using (scan_ind m Hproper).
  - intros [].
  - rewrite gsub_miss by exact Hmiss. simpl. intuition.
  - rewrite (gsub_hit m repl _ v n Hhit Hn), in_app_iff.
    intros [H|H]; [left; exact H|]. destruct (IH H) as [H'|H']; [left; exact H'|].
    right. rewrite <- (firstn_skipn n s). apply in_or_app. right. exact H'.
Qed.

Lemma count_occ_skipn (c : ascii) (n : nat) (s : str) :
  count_occ ascii_dec (skipn n s) c <= count_occ ascii_dec s c.
Proof.
  rewrite <- (firstn_skipn n s) at 2. rewrite count_occ_app. lia.
Qed.

Lemma gsub_count (c : ascii) (s : str) :
  count_occ ascii_dec repl c = 0 ->
  count_occ ascii_dec (gsub m repl s) c <= count_occ ascii_dec s c.
Proof.
  intros Hr.
  induction s as [| a s Hmiss IH | s v n Hhit Hn IH] using (scan_ind m Hproper).
  - simpl. lia.
  - rewrite gsub_miss by exact Hmiss. simpl. destruct (ascii_dec a c); lia.
  - rewrite (gsub_hit m repl _ v n Hhit Hn), count_occ_app, Hr.
    pose proof (count_occ_skipn c n s). lia.
Qed.
End GsubFacts.

Lemma span_not_rest_In (c : ascii) (s : str) :
  snd (span_not c s) <> [] <-> In c s.
Proof.
  induction s as [|a s IH]; simpl.
  { split; [intros H; apply H; reflexivity | intros []]. }
  destruct (Ascii.eqb_spec a c) as [->|Hne]; simpl.
  - split; [auto | discriminate].
  - destruct (span_not c s) as [b r]; simpl in *. rewrite IH.
    split; [auto | intros [H|H]; [congruence | exact H]].
Qed.

Lemma span_not_run_nil (c : ascii) (s : str) :
  fst (span_not c s) = [] <-> s = [] \/ startswith [c] s = true.
Proof.
  destruct s as [|a s]; simpl; [split; auto|]. rewrite andb_true_r.
  destruct (Ascii.eqb_spec a c) as [->|Hne].
  - rewrite Ascii.eqb_refl. simpl. split; [right|]; reflexivity.
  - rewrite (proj2 (Ascii.eqb_neq c a)) by congruence.
    destruct (span_not c s). simpl. split; [discriminate|].
    intros [H|H]; discriminate.
Qed.

(** A template match: ["${"], a character other than ["}"], and a ["}"]
    somewhere behind it. *)
Lemma template_at_some (s : str) :
  template_at s <> None <->
  exists c t, s = "$"%char :: "{"%char :: c :: t /\ c <> "}"%char /\ In "}"%char t.
Proof.
  destruct s as [|a [|b t]]; simpl.
  - split; [congruence | intros (c & t & H & _); discriminate].
  - split; [congruence | intros (c & t & H & _); discriminate].
  - destruct (Ascii.eqb_spec a "$") as [->|Ha]; simpl.
    2:{ split; [congruence | intros (c & t' & H & _); congruence]. }
    destruct (Ascii.eqb_spec b "{") as [->|Hb]; simpl.
    2:{ split; [congruence | intros (c & t' & H & _); congruence]. }
    destruct t as [|c t]; simpl.
    { split; [congruence | intros (c & t' & H & _); discriminate]. }
    destruct (Ascii.eqb_spec c "}") as [->|Hc].
    { split; [congruence | intros (c & t' & H & Hc & _); congruence]. }
    pose proof (span_not_rest_In "}" t) as Hr.
    destruct (span_not "}" t) as [run rest]; simpl in *.
    destruct rest as [|r rest].
    + split; [congruence|]. intros (c' & t' & [= <- <-] & _ & Hin).
      apply Hr in Hin. congruence.
    + split; [|discriminate]. intros _. exists c, t.
      split; [reflexivity|]. split; [exact Hc|]. apply Hr. discriminate.
Qed.

Lemma has_match_cons {A : Type} (m : str -> option (A * nat)) (a : ascii) (s : str) :
  has_match m (a :: s) =
  match m (a :: s) with Some _ => true | None => has_match m s end.
Proof. reflexivity. Qed.

Lemma template_at_head (a : ascii) (s : str) :
  Ascii.eqb a "$" = false -> template_at (a :: s) = None.
Proof. intros H. destruct s; simpl; [reflexivity|]. rewrite H. reflexivity. Qed.

Lemma has_match_template_id (z : str) :
  has_match template_at (txt ":id" ++ z) = has_match template_at z.
Proof.
  change (txt ":id" ++ z) with (":"%char :: "i"%char :: "d"%char :: z).
  rewrite !has_match_cons, !template_at_head by reflexivity. reflexivity.
Qed.

Section GsubId.
Context {A : Type}.
Variable m : str -> option (A * nat).
Hypothesis Hproper : proper m.

Lemma gsub_id_cons_inv (s : str) (d : ascii) (z : str) :
  d <> ":"%char -> gsub m (txt ":id") s = d :: z ->
  exists s', s = d :: s' /\ m s = None /\ z = gsub m (txt ":id") s'.
Proof.
  intros Hd H. apply (gsub_cons_cases m Hproper) in H as [(v & n & _ & _ & H)|H].
  - injection H as H _. congruence.
  - exact H.
Qed.

(** Text free of [":"] at the start of the result was there before. *)
Lemma gsub_id_startswith (u s : str) :
  ~ In ":"%char u ->
  startswith u (gsub m (txt ":id") s) = true -> startswith u s = true.
Proof.
  revert s; induction u as [|d u IH]; intros s Hu H; [reflexivity|].
  destruct (gsub m (txt ":id") s) as [|d' z] eqn:E; [discriminate|].
  simpl in H. apply andb_true_iff in H as [Hd Hz].
  apply Ascii.eqb_eq in Hd as <-.
  apply gsub_id_cons_inv in E as (s' & -> & _ & ->).
  - simpl. rewrite Ascii.eqb_refl. simpl. apply IH; [|exact Hz].
    intros Hin. apply Hu. right. exact Hin.
  - intros ->. apply Hu. left. reflexivity.
Qed.

Lemma gsub_id_api (s : str) :
  str_in (txt "/api/") (gsub m (txt ":id") s) = true ->
  str_in (txt "/api/") s = true.
Proof.
  induction s as [| a s Hmiss IH | s v n Hhit Hn IH] using (scan_ind m Hproper).
  - intros H. exact H.
  - rewrite gsub_miss by exact Hmiss. rewrite !str_in_cons.
    intros H. apply orb_true_iff in H as [H|H].
    + apply orb_true_iff. left.
      apply (gsub_id_startswith (txt "/api/") (a :: s)).
      * simpl. intros H'. repeat destruct H' as [H'|H']; try discriminate; exact H'.
      * rewrite gsub_miss by exact Hmiss. exact H.
    + rewrite (IH H). apply orb_true_r.
  - rewrite (gsub_hit m (txt ":id") _ v n Hhit Hn). simpl. eqb_lit. simpl.
    intros H. apply (str_in_skipn _ _ n), IH, H.
Qed.

(** When the matches of [m] do not start with ["}"], a template match
    at the start of the result was one before. *)
Hypothesis Hhead :
  forall s v n, m s = Some (v, n) -> startswith (txt "}") s = false.

Lemma gsub_id_template (a : ascii) (s : str) :
  template_at (a :: gsub m (txt ":id") s) <> None -> template_at (a :: s) <> None.
Proof.
  rewrite !template_at_some. intros (c & t & [= -> E] & Hc & Hin).
  apply gsub_id_cons_inv in E as (s' & -> & _ & E); [|discriminate].
  symmetry in E. apply (gsub_cons_cases m Hproper) in E
    as [(v & n & Hhit & Hn & E)|(s'' & -> & _ & ->)].
  - injection E as <- <-.
    destruct s' as [|h s']; [simpl in Hn; lia|].
    exists h, s'. split; [reflexivity|]. split.
    + intros ->. apply Hhead in Hhit. discriminate.
    + simpl in Hin. destruct Hin as [Hin|[Hin|Hin]]; try discriminate.
      apply (gsub_In m Hproper) in Hin as [Hin|Hin].
      * simpl in Hin. repeat destruct Hin as [Hin|Hin]; try discriminate; destruct Hin.
      * destruct n as [|n]; [lia|]. simpl in Hin.
        rewrite <- (firstn_skipn n s'). apply in_or_app. right. exact Hin.
  - exists c, s''. split; [reflexivity|]. split; [exact Hc|].
    apply (gsub_In m Hproper) in Hin as [Hin|Hin]; [|exact Hin].
    simpl in Hin. repeat destruct Hin as [Hin|Hin]; try discriminate; destruct Hin.
Qed.

(** If the text has no template match where [m] passes a character
    over, the result has none at all. *)
Lemma gsub_id_template_free (s : str) :
  (forall k, m (skipn k s) = None -> template_at (skipn k s) = None) ->
  has_match template_at (gsub m (txt ":id") s) = false.
Proof.
  induction s as [| a s Hmiss IH | s v n Hhit Hn IH] using (scan_ind m Hproper);
    intros HQ.
  - reflexivity.
  - rewrite gsub_miss by exact Hmiss. rewrite has_match_cons.
    destruct (template_at (a :: gsub m (txt ":id") s)) eqn:E.
    + exfalso. apply (gsub_id_template a s); [congruence|].
      apply (HQ 0). exact Hmiss.
    + apply IH. intros k. apply (HQ (S k)).
  - rewrite (gsub_hit m (txt ":id") _ v n Hhit Hn). 
    rewrite has_match_template_id.
    apply IH. intros k. rewrite skipn_skipn. apply HQ.
Qed.
End GsubId.

(** ** The steps of [normalize_path] *)

Lemma template_proper : proper (re_match re_template).
Proof. apply re_match_proper; [reflexivity | simpl; lia]. Qed.

Lemma colon_proper : proper (re_match re_colon).
Proof. apply re_match_proper; [reflexivity | simpl; lia]. Qed.

Lemma lit_proper (old : str) : old <> [] -> proper (lit_match old).
Proof.
  intros Hold s v n. unfold lit_match.
  destruct (startswith old s) eqn:E; [|discriminate]. intros [= _ <-].
  apply startswith_length in E. destruct old; [congruence|]. simpl in *. lia.
Qed.

Lemma has_match_ext {A B : Type} (m1 : str -> option (A * nat))
    (m2 : str -> option (B * nat)) (s : str) :
  (forall t, m1 t = None <-> m2 t = None) ->
  has_match m1 s = has_match m2 s.
Proof.
  intros H. induction s as [|a s IH]; [reflexivity|].
  rewrite !has_match_cons, IH. specialize (H (a :: s)).
  destruct (m1 (a :: s)), (m2 (a :: s)); try reflexivity.
  - destruct H as [_ H]. discriminate H. reflexivity.
  - destruct H as [H _]. discriminate H. reflexivity.
Qed.

Lemma has_match_lit (old s : str) :
  old <> [] -> has_match (lit_match old) s = str_in old s.
Proof.
  intros Hold. induction s as [|a s IH].
  - destruct old; [congruence | reflexivity].
  - rewrite has_match_cons, str_in_cons, IH. unfold lit_match.
    destruct (startswith old (a :: s)); reflexivity.
Qed.

Lemma normalize_path_steps (p : str) :
  normalize_path p =
  sub_colon (sub_template (lstrip (txt "/") (replace (txt "/api/") (txt "/") p))).
Proof. reflexivity. Qed.

(** After the first substitution no template is left, and the second
    substitution brings none back. *)
Lemma sub_template_free (s : str) :
  has_match (re_match re_template) (sub_template s) = false.
Proof.
  rewrite (has_match_ext _ template_at)
    by (intros t; rewrite re_template_direct; reflexivity).
  apply (gsub_id_template_free _ template_proper).
  - intros t v n H. rewrite re_template_direct in H.
    destruct t as [|a [|b t]]; try discriminate. simpl in H.
    destruct (Ascii.eqb_spec a "$") as [->|]; [reflexivity|discriminate].
  - intros k. rewrite re_template_direct. auto.
Qed.

Lemma sub_colon_template_free (s : str) :
  has_match (re_match re_template) s = false ->
  has_match (re_match re_template) (sub_colon s) = false.
Proof.
  rewrite !(has_match_ext (re_match re_template) template_at)
    by (intros t; rewrite re_template_direct; reflexivity).
  intros H. apply (gsub_id_template_free _ colon_proper).
  - intros t v n Ht. rewrite re_colon_direct in Ht.
    destruct t as [|a t]; try discriminate. simpl in Ht.
    destruct (Ascii.eqb_spec a ":") as [->|]; [reflexivity|discriminate].
  - intros k _. apply (has_match_skipn _ k) in H.
    destruct (skipn k s) as [|a t]; [reflexivity|].
    rewrite has_match_cons in H. destruct (template_at (a :: t)); [discriminate|reflexivity].
Qed.

(** A colon match is [":"] and the longest run without ["/"] behind it. *)
Lemma colon_at_none (a : ascii) (s : str) :
  Ascii.eqb a ":" = false \/ s = [] \/ startswith (txt "/") s = true ->
  colon_at (a :: s) = None.
Proof.
  simpl. intros [->|H]; [reflexivity|].
  destruct (Ascii.eqb a ":"); [|reflexivity].
  apply (span_not_run_nil "/") in H.
  destruct (span_not "/" s) as [run rest]; simpl in *. rewrite H. reflexivity.
Qed.

Lemma colon_at_none_inv (a : ascii) (s : str) :
  colon_at (a :: s) = None ->
  Ascii.eqb a ":" = false \/ s = [] \/ startswith (txt "/") s = true.
Proof.
  simpl. destruct (Ascii.eqb a ":"); [|left; reflexivity]. intros H. right.
  apply (span_not_run_nil "/").
  destruct (span_not "/" s) as [[|c run] rest]; [reflexivity|discriminate].
Qed.

Lemma colon_at_some (s : str) (v : list str) (n : nat) :
  colon_at s = Some (v, n) ->
  skipn n s = [] \/ startswith (txt "/") (skipn n s) = true.
Proof.
  destruct s as [|a s]; [discriminate|]. simpl.
  destruct (Ascii.eqb a ":"); [|discriminate].
  pose proof (span_not_app "/" s) as Happ.
  pose proof (span_not_rest "/" s) as Hrest.
  destruct (span_not "/" s) as [[|c run] rest]; [discriminate|].
  intros [= _ <-]. cbn [fst snd] in *.
  assert (E : skipn (length (c :: run)) s = rest).
  { rewrite Happ. rewrite skipn_app, skipn_all, Nat.sub_diag. reflexivity. }
  simpl in E. simpl. rewrite E.
  destruct Hrest as [->|[r ->]]; [left; reflexivity|right; reflexivity].
Qed.

Lemma sub_colon_head (s : str) :
  s = [] \/ startswith (txt "/") s = true ->
  sub_colon s = [] \/ startswith (txt "/") (sub_colon s) = true.
Proof.
  intros [->|H]; [left; reflexivity|]. right.
  destruct s as [|a s]; [discriminate|].
  simpl in H. apply andb_true_iff in H as [H _].
  apply Ascii.eqb_eq in H as <-.
  unfold sub_colon, re_sub. rewrite gsub_miss; [reflexivity|].
  rewrite re_colon_direct. reflexivity.
Qed.

Lemma sub_colon_idem (s : str) : sub_colon (sub_colon s) = sub_colon s.
Proof.
  induction s as [| a s Hmiss IH | s v n Hhit Hn IH]
    using (scan_ind _ colon_proper).
  - reflexivity.
  - unfold sub_colon, re_sub in *. rewrite gsub_miss by exact Hmiss.
    rewrite gsub_miss; [rewrite IH; reflexivity|].
    rewrite re_colon_direct in *. apply colon_at_none.
    apply colon_at_none_inv in Hmiss as [H|H]; [left; exact H|].
    right. apply sub_colon_head, H.
  - unfold sub_colon, re_sub in *. rewrite (gsub_hit _ _ _ v n Hhit Hn).
    rewrite re_colon_direct in Hhit. apply colon_at_some in Hhit.
    apply sub_colon_head in Hhit. unfold sub_colon, re_sub in Hhit.
    set (z := gsub (re_match re_colon) (txt ":id") (skipn n s)) in *.
    assert (Hz : re_match re_colon (txt ":id" ++ z) = Some ([], 3)).
    { rewrite re_colon_direct. destruct Hhit as [->|H]; [reflexivity|].
      destruct z as [|c z]; [discriminate|]. simpl in H.
      apply andb_true_iff in H as [H _]. apply Ascii.eqb_eq in H as <-.
      reflexivity. }
    rewrite (gsub_hit _ _ _ _ _ Hz); [|simpl; lia].
    change (skipn 3 (txt ":id" ++ z)) with z. rewrite IH. reflexivity.
Qed.

Lemma startswith_cons (a : ascii) (p : str) (b : ascii) (s : str) :
  startswith (a :: p) (b :: s) = Ascii.eqb a b && startswith p s.
Proof. reflexivity. Qed.

Lemma api_proper : proper (lit_match (txt "/api/")).
Proof. apply lit_proper. discriminate. Qed.

Lemma replace_api_miss (a : ascii) (s : str) :
  startswith (txt "/api/") (a :: s) = false ->
  replace_api (a :: s) = a :: replace_api s.
Proof.
  intros H. unfold replace_api, replace. apply gsub_miss.
  unfold lit_match. rewrite H. reflexivity.
Qed.

Lemma replace_api_hit (s : str) :
  startswith (txt "/api/") s = true ->
  replace_api s = "/"%char :: replace_api (skipn 5 s).
Proof.
  intros H. unfold replace_api, replace.
  rewrite (gsub_hit _ _ s tt 5).
  - reflexivity.
  - unfold lit_match. rewrite H. reflexivity.
  - apply startswith_length in H. simpl in H. lia.
Qed.

Lemma replace_api_id (s : str) :
  str_in (txt "/api/") s = false -> replace_api s = s.
Proof.
  intros H. apply gsub_no_match. rewrite has_match_lit; [exact H|discriminate].
Qed.

(** A character other than ["/"] at the start of the result was there
    before, and so was a ["/"]. *)
Lemma replace_api_cons (s : str) (d : ascii) (z : str) :
  replace_api s = d :: z ->
  exists s', s = d :: s' /\ (d = "/"%char \/ z = replace_api s').
Proof.
  destruct s as [|a s]; [discriminate|].
  destruct (startswith (txt "/api/") (a :: s)) eqn:E.
  - rewrite (replace_api_hit _ E). intros [= <- _].
    destruct (Ascii.eqb_spec a "/") as [->|Ha].
    + exists s. auto.
    + simpl in E. rewrite (proj2 (Ascii.eqb_neq _ _)) in E by congruence.
      discriminate.
  - rewrite (replace_api_miss _ _ E). intros [= <- <-]. exists s. auto.
Qed.

Lemma replace_api_startswith (s : str) :
  startswith (txt "api/") (replace_api s) = true ->
  startswith (txt "api/") s = true.
Proof.
  intros H.
  destruct (replace_api s) as [|c1 z1] eqn:E1; [discriminate|].
  simpl in H. apply andb_true_iff in H as [H1 H]. apply Ascii.eqb_eq in H1 as <-.
  apply replace_api_cons in E1 as (s1 & -> & [?| ->]); [discriminate|].
  destruct (replace_api s1) as [|c2 z2] eqn:E2; [discriminate|].
  apply andb_true_iff in H as [H2 H]. apply Ascii.eqb_eq in H2 as <-.
  apply replace_api_cons in E2 as (s2 & -> & [?| ->]); [discriminate|].
  destruct (replace_api s2) as [|c3 z3] eqn:E3; [discriminate|].
  apply andb_true_iff in H as [H3 H]. apply Ascii.eqb_eq in H3 as <-.
  apply replace_api_cons in E3 as (s3 & -> & [?| ->]); [discriminate|].
  destruct (replace_api s3) as [|c4 z4] eqn:E4; [discriminate|].
  apply andb_true_iff in H as [H4 H]. apply Ascii.eqb_eq in H4 as <-.
  apply replace_api_cons in E4 as (s4 & -> & _).
  reflexivity.
Qed.

(** Where no two occurrences of ["/api/"] overlap, none is left. *)
Lemma replace_api_clean (s : str) :
  str_in (txt "/api/api/") s = false ->
  str_in (txt "/api/") (replace_api s) = false.
Proof.
  induction s as [| a s Hmiss IH | s v n Hhit Hn IH]
    using (scan_ind _ api_proper); intros H.
  - reflexivity.
  - unfold lit_match in Hmiss.
    destruct (startswith (txt "/api/") (a :: s)) eqn:E; [discriminate|].
    rewrite (replace_api_miss _ _ E), str_in_cons.
    rewrite str_in_cons in H. apply orb_false_iff in H as [_ H].
    rewrite (IH H), orb_false_r.
    destruct (startswith (txt "/api/") (a :: replace_api s)) eqn:E'; [|reflexivity].
    change (txt "/api/") with ("/"%char :: txt "api/") in E, E'.
    rewrite startswith_cons in E, E'. apply andb_true_iff in E' as [Ha E'].
    apply replace_api_startswith in E'. rewrite Ha, E' in E. discriminate.
  - unfold lit_match in Hhit.
    destruct (startswith (txt "/api/") s) eqn:E; [|discriminate].
    injection Hhit as _ <-.
    rewrite (replace_api_hit _ E), str_in_cons.
    rewrite (IH (str_in_false_skipn _ _ _ H)), orb_false_r.
    destruct (startswith (txt "/api/") ("/"%char :: replace_api (skipn 5 s))) eqn:E';
      [|reflexivity].
    change (txt "/api/") with ("/"%char :: txt "api/") in E'.
    rewrite startswith_cons in E'. apply andb_true_iff in E' as [_ E'].
    apply replace_api_startswith in E'.
    assert (Hs : startswith (txt "/api/api/") s = true).
    { apply startswith_spec. apply startswith_skipn in E.
      apply startswith_spec in E' as [t Ht]. exists t.
      rewrite E at 1. simpl length. rewrite Ht. reflexivity. }
    destruct s as [|a s]; [discriminate|].
    rewrite str_in_cons, Hs in H. discriminate.
Qed.

Lemma replace_api_count (s : str) : count_p (replace_api s) <= count_p s.
Proof. apply (gsub_count _ api_proper). reflexivity. Qed.

Lemma replace_api_count_lt (s : str) :
  str_in (txt "/api/") s = true -> count_p (replace_api s) < count_p s.
Proof.
  induction s as [| a s Hmiss IH | s v n Hhit Hn IH]
    using (scan_ind _ api_proper); intros H.
  - discriminate.
  - unfold lit_match in Hmiss.
    destruct (startswith (txt "/api/") (a :: s)) eqn:E; [discriminate|].
    rewrite str_in_cons, E in H. simpl in H. specialize (IH H).
    rewrite (replace_api_miss _ _ E). simpl. destruct (ascii_dec a "p"); lia.
  - unfold lit_match in Hhit.
    destruct (startswith (txt "/api/") s) eqn:E; [|discriminate].
    rewrite (replace_api_hit _ E).
    pose proof (replace_api_count (skipn 5 s)) as Hle.
    apply startswith_skipn in E. rewrite E at 2. simpl length.
    rewrite count_occ_app.
    change (count_p ("/"%char :: replace_api (skipn 5 s)))
      with (count_p (replace_api (skipn 5 s))).
    change (count_p (txt "/api/")) with 1. lia.
Qed.

Lemma lstrip_count (chars s : str) : count_p (lstrip chars s) <= count_p s.
Proof.
  destruct (lstrip_suffix chars s) as [n ->]. apply count_occ_skipn.
Qed.

Lemma normalize_path_count (s : str) :
  count_p (normalize_path s) <= count_p s.
Proof.
  rewrite normalize_path_steps.
  pose proof (gsub_count _ colon_proper (txt ":id") "p"
    (sub_template (lstrip (txt "/") (replace (txt "/api/") (txt "/") s))) eq_refl).
  pose proof (gsub_count _ template_proper (txt ":id") "p"
    (lstrip (txt "/") (replace (txt "/api/") (txt "/") s)) eq_refl).
  pose proof (lstrip_count (txt "/") (replace (txt "/api/") (txt "/") s)).
  pose proof (replace_api_count s).
  unfold sub_colon, sub_template, re_sub, replace_api in *. lia.
Qed.

(** ** [normalize_path] *)

Lemma normalize_path_head (p : str) :
  startswith (txt "/") (normalize_path p) = false.
Proof.
  rewrite normalize_path_steps.
  destruct (startswith (txt "/") (sub_colon _)) eqn:E; [|reflexivity].
  apply (gsub_id_startswith _ colon_proper) in E.
  - apply (gsub_id_startswith _ template_proper) in E.
    + rewrite (lstrip_head "/") in E. discriminate.
    + intros [H|[]]. discriminate.
  - intros [H|[]]. discriminate.
Qed.

(** ["/api/"] in the result was left there by the first step. *)
Lemma normalize_path_api (p : str) :
  str_in (txt "/api/") (normalize_path p) = true ->
  str_in (txt "/api/") (replace_api p) = true.
Proof.
  rewrite normalize_path_steps. intros H.
  apply (gsub_id_api _ colon_proper) in H.
  apply (gsub_id_api _ template_proper) in H.
  destruct (lstrip_suffix (txt "/") (replace (txt "/api/") (txt "/") p)) as [n E].
  rewrite E in H. apply str_in_skipn in H. exact H.
Qed.

(** A result without ["/api/"] is a fixed point. *)
Lemma normalize_path_fixed (p : str) :
  str_in (txt "/api/") (normalize_path p) = false ->
  normalize_path (normalize_path p) = normalize_path p.
Proof.
  intros H. rewrite (normalize_path_steps (normalize_path p)).
  fold replace_api. rewrite (replace_api_id _ H).
  pose proof (lstrip_id "/" _ (normalize_path_head p)) as Hl.
  change ["/"%char] with (txt "/") in Hl. rewrite Hl.
  rewrite normalize_path_steps.
  set (x := sub_template (lstrip _ _)).
  assert (Hx : sub_template (sub_colon x) = sub_colon x).
  { apply gsub_no_match. apply sub_colon_template_free, sub_template_free. }
  rewrite Hx. apply sub_colon_idem.
Qed.

(** C7: [normalize("/api/users/:id")] and [normalize("users/${userId}")]
    are equal, and both are ["users/:id"]. *)
Theorem normalize_path_users_id :
  normalize_path (txt "/api/users/:id") = normalize_path (txt "users/${userId}")
  /\ normalize_path (txt "/api/users/:id") = txt "users/:id"
  /\ normalize_path (txt "users/${userId}") = txt "users/:id".
Proof. repeat split; reflexivity. Qed.

(** C10: for every path [p], [normalize_path p] does not begin with the
    separator ["/"]. *)
Theorem normalize_path_no_leading_slash (p rest : str) :
  normalize_path p <> "/"%char :: rest.
Proof.
  intros H. pose proof (normalize_path_head p) as Hh.
  rewrite H in Hh. discriminate.
Qed.

(** C4, as stated, fails: ["/v1/api/api/users"] normalizes to
    ["v1/api/users"], and that normalizes to ["v1/users"]. *)
Lemma normalize_path_idempotent_counterexample :
  normalize_path (txt "/v1/api/api/users") = txt "v1/api/users"
  /\ normalize_path (normalize_path (txt "/v1/api/api/users")) = txt "v1/users"
  /\ normalize_path (normalize_path (txt "/v1/api/api/users"))
     <> normalize_path (txt "/v1/api/api/users").
Proof. repeat split; try reflexivity. discriminate. Qed.

(** C4, amended: normalizing a second time changes nothing exactly when
    the normalized path contains no ["/api/"]; this is so, in particular,
    for every path that does not contain ["/api/api/"]. *)
Theorem normalize_path_idempotent_iff (p : str) :
  (normalize_path (normalize_path p) = normalize_path p
   <-> str_in (txt "/api/") (normalize_path p) = false)
  /\ (str_in (txt "/api/api/") p = false ->
      normalize_path (normalize_path p) = normalize_path p).
Proof.
  split.
  2:{ intros H. apply normalize_path_fixed.
      destruct (str_in (txt "/api/") (normalize_path p)) eqn:E; [|reflexivity].
      apply normalize_path_api in E. rewrite (replace_api_clean _ H) in E.
      discriminate. }
  split; [|apply normalize_path_fixed].
  intros H. destruct (str_in (txt "/api/") (normalize_path p)) eqn:E; [|reflexivity].
  exfalso.
  pose proof (replace_api_count_lt _ E) as Hlt.
  assert (Hc : count_p (normalize_path (normalize_path p))
               <= count_p (replace_api (normalize_path p))).
  { rewrite (normalize_path_steps (normalize_path p)). fold replace_api.
    pose proof (gsub_count _ colon_proper (txt ":id") "p"
      (sub_template (lstrip (txt "/") (replace_api (normalize_path p)))) eq_refl).
    pose proof (gsub_count _ template_proper (txt ":id") "p"
      (lstrip (txt "/") (replace_api (normalize_path p))) eq_refl).
    pose proof (lstrip_count (txt "/") (replace_api (normalize_path p))).
    unfold sub_colon, sub_template, re_sub in *. lia. }
  rewrite H in Hc. lia.
Qed.

(** C5, as stated, fails where two occurrences of ["/api/"] overlap: the
    scan replaces the first and passes over the second. *)
Lemma normalize_path_api_counterexample :
  str_in (txt "/api/") (txt "/v1/api/api/users") = true
  /\ normalize_path (txt "/v1/api/api/users") = txt "v1/api/users"
  /\ str_in (txt "/api/") (normalize_path (txt "/v1/api/api/users")) = true.
Proof. repeat split; reflexivity. Qed.

(** C5, amended: for every path in which no two occurrences of ["/api/"]
    overlap, that is, which does not contain ["/api/api/"], the normalized
    path contains no ["/api/"]. *)
Theorem normalize_path_removes_api (p : str) :
  str_in (txt "/api/api/") p = false ->
  str_in (txt "/api/") (normalize_path p) = false.
Proof.
  intros H. destruct (str_in (txt "/api/") (normalize_path p)) eqn:E; [|reflexivity].
  apply normalize_path_api in E. rewrite (replace_api_clean _ H) in E. discriminate.
Qed.

Lemma normalize_path_removes_api_witness :
  str_in (txt "/api/") (normalize_path (txt "/api/v1/api/users")) = false.
Proof. apply normalize_path_removes_api. reflexivity. Defined.

(** ** The extractors *)

Lemma for_each_ok {A S : Type} (l : list A) (body : A -> S -> result S)
    (g : A -> S -> S) (st : S) :
  (forall x st, In x l -> body x st = Ok (g x st)) ->
  for_each l body st = Ok (fold_left (fun st x => g x st) l st).
Proof.
  revert st; induction l as [|x l IH]; intros st H; [reflexivity|].
  simpl. rewrite H by (left; reflexivity). simpl.
  apply IH. intros y st' Hy. apply H. right. exact Hy.
Qed.

Lemma for_each_cons {A S : Type} (x : A) (l : list A)
    (body : A -> S -> result S) (st : S) :
  for_each (x :: l) body st = bind (body x st) (fun st' => for_each l body st').
Proof. reflexivity. Qed.

Lemma bind_Ok {A B : Type} (a : A) (k : A -> result B) : bind (Ok a) k = k a.
Proof. reflexivity. Qed.

Lemma unpack2_ok (t : list str) :
  length t = 2 -> unpack2 t = Ok (nth 0 t [], nth 1 t []).
Proof.
  destruct t as [|a [|b [|c t]]]; try discriminate. reflexivity.
Qed.

Lemma finditer_from_In {A : Type} (m : str -> option (A * nat))
    (pos k : nat) (s : str) (x : nat * A) :
  In x (finditer_from m pos k s) -> exists t n, m t = Some (snd x, n).
Proof.
  revert pos k; induction s as [|a s IH]; intros pos k; simpl; [intros []|].
  destruct k as [|k]; [|apply IH].
  destruct (m (a :: s)) as [[v n]|] eqn:E; [|apply IH].
  intros [<-|H]; [|apply IH in H; exact H]. exists (a :: s), n. exact E.
Qed.

Lemma sites_groups (patterns : list regex) (content : str) (x : nat * list str) :
  Forall extraction_pattern patterns ->
  In x (sites patterns content) -> length (snd x) = 2.
Proof.
  intros Hp Hx. unfold sites in Hx. apply in_flat_map in Hx as (r & Hr & Hx).
  rewrite List.Forall_forall in Hp. destruct (Hp r Hr) as (Hu & Hg & _).
  apply finditer_from_In in Hx as (t & n & Ht).
  apply re_match_sound in Ht as [Hc _]; [|exact Hu]. congruence.
Qed.

Lemma backend_patterns_ok : Forall extraction_pattern backend_patterns.
Proof. repeat constructor; simpl; lia. Qed.

Lemma frontend_patterns_ok : Forall extraction_pattern frontend_patterns.
Proof. repeat constructor; simpl; lia. Qed.

(** The two inner loops of an extractor, as one pass over the sites. *)
Lemma extractor_loops {S : Type} (patterns : list regex) (content : str)
    (f : str -> str -> S -> S) (st : S) :
  Forall extraction_pattern patterns ->
  for_each patterns (fun pattern st =>
    let matches := re_findall pattern content in
    for_each matches (fun t st =>
      do '(a, b) <- unpack2 t; Ok (f a b st)) st) st
  = Ok (fold_left (fun st site => f (nth 0 (snd site) []) (nth 1 (snd site) []) st)
          (sites patterns content) st).
Proof.
  intros Hp. revert st. induction patterns as [|r patterns IH]; intros st.
  - reflexivity.
  - pose proof (List.Forall_inv Hp) as Hr. apply List.Forall_inv_tail in Hp.
    unfold sites. simpl flat_map. rewrite fold_left_app. simpl for_each.
    rewrite (for_each_ok _ _ (fun t st => f (nth 0 t []) (nth 1 t []) st)).
    + simpl. rewrite (IH Hp). f_equal. f_equal.
      unfold re_findall, findall. generalize (finditer (re_match r) content).
      intros l. revert st. induction l as [|x l IHl]; intros st; [reflexivity|].
      simpl. apply IHl.
    + intros t st' Ht. rewrite unpack2_ok; [reflexivity|].
      unfold re_findall, findall in Ht. apply in_map_iff in Ht as (x & <- & Hx).
      apply (sites_groups [r] content); [constructor; [exact Hr | constructor]|].
      unfold sites. simpl. rewrite app_nil_r. exact Hx.
Qed.

Lemma fold_left_snoc {A B : Type} (g : A -> B) (l : list A) (acc : list B) :
  fold_left (fun acc x => acc ++ [g x]) l acc = acc ++ map g l.
Proof.
  revert acc; induction l as [|x l IH]; intros acc; simpl.
  - rewrite app_nil_r. reflexivity.
  - rewrite IH, <- app_assoc. reflexivity.
Qed.

Lemma extract_frontend_api_calls_sites (content : str) :
  extract_frontend_api_calls (Some content)
  = Ok (map (fun site => call_of (snd site)) (sites frontend_patterns content)).
Proof.
  unfold extract_frontend_api_calls. simpl read. unfold bind at 1.
  rewrite (extractor_loops frontend_patterns content
             (fun a b st => st ++ [{| method := upper a; path := b |}]))
    by exact frontend_patterns_ok.
  f_equal. exact (fold_left_snoc (fun site => call_of (snd site)) _ []).
Qed.

Lemma extract_frontend_api_calls_unreadable :
  extract_frontend_api_calls None = Raise OSError.
Proof. reflexivity. Qed.

Lemma backend_file_loop (f : file) (content : str) (routes : groups) :
  for_each backend_patterns (fun pattern routes =>
      let matches := re_findall pattern content in
      for_each matches (fun t routes =>
        do '(method, path) <- unpack2 t;
        let path := strip path in
        Ok (group_append (stem (name f))
              {| method := upper method; path := path |} routes))
        routes)
      routes
  = Ok (add_records (stem (name f)) (file_records content) routes).
Proof.
  rewrite (extractor_loops backend_patterns content
             (fun a b st => group_append (stem (name f))
                {| method := upper a; path := strip b |} st))
    by exact backend_patterns_ok.
  f_equal. unfold add_records, file_records.
  generalize (sites backend_patterns content). intros l. revert routes.
  induction l as [|x l IH]; intros routes; [reflexivity|]. simpl. apply IH.
Qed.

Lemma extract_backend_routes_from (routes_dir : list file) (routes : groups) :
  for_each routes_dir (fun route_file routes =>
    do content <- read (text route_file);
    for_each backend_patterns (fun pattern routes =>
      let matches := re_findall pattern content in
      for_each matches (fun t routes =>
        do '(method, path) <- unpack2 t;
        let path := strip path in
        Ok (group_append (stem (name route_file))
              {| method := upper method; path := path |} routes))
        routes)
      routes)
    routes
  = if forallb readable routes_dir
    then Ok (fold_left add_file routes_dir routes)
    else Raise OSError.
Proof.
  revert routes; induction routes_dir as [|f l IH]; intros routes; [reflexivity|].
  rewrite for_each_cons. cbv beta. simpl forallb. simpl fold_left.
  unfold readable at 1, add_file at 2, content_of.
  destruct (text f) as [content|]; [|reflexivity].
  simpl read. rewrite bind_Ok, backend_file_loop, bind_Ok. apply IH.
Qed.

Lemma extract_backend_routes_files (routes_dir : list file) :
  extract_backend_routes routes_dir
  = if forallb readable routes_dir
    then Ok (fold_left add_file routes_dir [])
    else Raise OSError.
Proof. apply extract_backend_routes_from. Qed.

Lemma str_eqb_refl (a : str) : str_eqb a a = true.
Proof. apply str_eqb_spec. reflexivity. Qed.

Lemma str_eqb_reflect (a b : str) : reflect (a = b) (str_eqb a b).
Proof.
  destruct (str_eqb a b) eqn:E; constructor.
  - apply str_eqb_spec, E.
  - intros H. apply str_eqb_spec in H. congruence.
Qed.

Lemma group_get_append (key k : str) (r : RouteRecord) (routes : groups) :
  group_get key (group_append k r routes)
  = if str_eqb k key then group_get key routes ++ [r] else group_get key routes.
Proof.
  induction routes as [|[k0 v] routes IH]; simpl.
  - destruct (str_eqb k key); reflexivity.
  - destruct (str_eqb_reflect k0 k) as [->|Hk]; simpl.
    + destruct (str_eqb k key); reflexivity.
    + destruct (str_eqb_reflect k0 key) as [->|Hk0]; [|exact IH].
      destruct (str_eqb_reflect k key) as [->|Hk']; [congruence|reflexivity].
Qed.

Lemma group_get_add_records (key k : str) (l : list RouteRecord) (routes : groups) :
  group_get key (add_records k l routes)
  = if str_eqb k key then group_get key routes ++ l else group_get key routes.
Proof.
  unfold add_records. revert routes. induction l as [|r l IH]; intros routes; simpl.
  - destruct (str_eqb k key); [rewrite app_nil_r|]; reflexivity.
  - rewrite IH, group_get_append. destruct (str_eqb k key); [|reflexivity].
    rewrite <- app_assoc. reflexivity.
Qed.

(** The group of a key holds the records of the files with that stem,
    file after file in the order of the listing. *)
Lemma group_get_files (key : str) (routes_dir : list file) (routes : groups) :
  group_get key (fold_left add_file routes_dir routes)
  = group_get key routes
    ++ flat_map (fun f => if str_eqb (stem (name f)) key
                          then file_records (content_of f) else [])
         routes_dir.
Proof.
  revert routes. induction routes_dir as [|f l IH]; intros routes; simpl.
  - rewrite app_nil_r. reflexivity.
  - rewrite IH. unfold add_file. rewrite group_get_add_records.
    destruct (str_eqb (stem (name f)) key); [|reflexivity].
    rewrite <- app_assoc. reflexivity.
Qed.

Lemma all_routes_append (k : str) (r : RouteRecord) (routes : groups) :
  Permutation (all_routes (group_append k r routes)) (all_routes routes ++ [r]).
Proof.
  unfold all_routes. induction routes as [|[k0 v] routes IH]; simpl.
  - reflexivity.
  - destruct (str_eqb k0 k); simpl.
    + rewrite <- !app_assoc. apply Permutation_app_head, Permutation_app_comm.
    + rewrite IH, app_assoc. reflexivity.
Qed.

Lemma all_routes_add_records (k : str) (l : list RouteRecord) (routes : groups) :
  Permutation (all_routes (add_records k l routes)) (all_routes routes ++ l).
Proof.
  unfold add_records. revert routes. induction l as [|r l IH]; intros routes; simpl.
  - rewrite app_nil_r. reflexivity.
  - rewrite IH, all_routes_append, <- app_assoc. reflexivity.
Qed.

Lemma all_routes_files (routes_dir : list file) (routes : groups) :
  Permutation (all_routes (fold_left add_file routes_dir routes))
    (all_routes routes
     ++ flat_map (fun f => file_records (content_of f)) routes_dir).
Proof.
  revert routes. induction routes_dir as [|f l IH]; intros routes; simpl.
  - rewrite app_nil_r. reflexivity.
  - rewrite IH. unfold add_file. rewrite all_routes_add_records, <- app_assoc.
    reflexivity.
Qed.

(** ** Order of the extracted records *)

Lemma finditer_in_source_order {A : Type} (m : str -> option (A * nat)) (s : str) :
  in_source_order (finditer m s).
Proof. apply finditer_from_sorted. Qed.

(** When only the pattern at index [i] matches anywhere, the sites are
    those of that pattern. *)
Lemma sites_one_pattern (patterns : list regex) (content : str) (i : nat) :
  (forall j, j < length patterns -> j <> i ->
     finditer (re_match (nth j patterns (Lit []))) content = []) ->
  in_source_order (sites patterns content).
Proof.
  revert i. induction patterns as [|r patterns IH]; intros i H.
  - constructor.
  - unfold sites. simpl flat_map. fold (sites patterns content).
    destruct i as [|i].
    + assert (E : sites patterns content = []).
      { clear IH. unfold sites.
        assert (H' : forall j, j < length patterns ->
                  finditer (re_match (nth j patterns (Lit []))) content = []).
        { intros j Hj. apply (H (S j)); [simpl; lia | discriminate]. }
        clear H. induction patterns as [|r' ps IHp]; [reflexivity|].
        assert (H0 := H' 0 ltac:(simpl; lia)). simpl in H0.
        simpl. rewrite H0. simpl.
        apply IHp. intros j Hj. apply (H' (S j)). simpl; lia. }
      rewrite E, app_nil_r. apply finditer_in_source_order.
    + assert (H0 := H 0 ltac:(simpl; lia) ltac:(discriminate)). simpl in H0.
      rewrite H0. simpl.
      apply (IH i). intros j Hj Hne. apply (H (S j)); [simpl; lia | congruence].
Qed.

(** C6, as stated, fails: a call without type parameter in front of a call
    with one, or a double-quoted route in front of a single-quoted one,
    comes out behind it. *)
Lemma extractors_source_order_counterexample :
  extract_frontend_api_calls (Some mixed_api)
  = Ok [ {| method := txt "POST"; path := txt "/b" |};
         {| method := txt "GET"; path := txt "/a" |} ]
  /\ map fst (sites frontend_patterns mixed_api) = [23; 0]
  /\ ~ in_source_order (sites frontend_patterns mixed_api)
  /\ extract_backend_routes [mixed_routes]
     = Ok [ (txt "mixed.routes",
             [ {| method := txt "POST"; path := txt "/b" |};
               {| method := txt "GET"; path := txt "/a" |} ]) ]
  /\ map fst (sites backend_patterns (content_of mixed_routes)) = [24; 0]
  /\ ~ in_source_order (sites backend_patterns (content_of mixed_routes)).
Proof.
  assert (H : forall a b, a > b -> ~ StronglySorted lt [a; b]).
  { intros a b Hab Hs. apply StronglySorted_inv in Hs as [_ Hs].
    apply List.Forall_inv in Hs. lia. }
  assert (Hf : map fst (sites frontend_patterns mixed_api) = [23; 0])
    by reflexivity.
  assert (Hb : map fst (sites backend_patterns (content_of mixed_routes)) = [24; 0])
    by reflexivity.
  split; [reflexivity|]. split; [exact Hf|].
  split; [unfold in_source_order; rewrite Hf; apply H; lia|].
  split; [reflexivity|]. split; [exact Hb|].
  unfold in_source_order. rewrite Hb. apply H. lia.
Qed.

(** C6, amended: each extractor emits the matches of its first pattern,
    then those of its second, and so on; the matches of one pattern are in
    source order, and so is the whole output when only one pattern matches
    in the text.  A backend group holds the records of the files with its
    stem, file after file. *)
Theorem extractors_pattern_order (content : str) (routes_dir : list file)
    (key : str) :
  extract_frontend_api_calls (Some content)
  = Ok (map (fun site => call_of (snd site)) (sites frontend_patterns content))
  /\ extract_backend_routes routes_dir
     = (if forallb readable routes_dir
        then Ok (fold_left add_file routes_dir [])
        else Raise OSError)
  /\ group_get key (fold_left add_file routes_dir [])
     = flat_map (fun f =>
         if str_eqb (stem (name f)) key
         then map (fun site => route_of (snd site))
                (sites backend_patterns (content_of f))
         else []) routes_dir
  /\ (forall patterns,
        sites patterns content
        = concat (map (fun pattern => finditer (re_match pattern) content)
                    patterns)
        /\ Forall (fun pattern =>
             in_source_order (finditer (re_match pattern) content)) patterns
        /\ forall i,
             (forall j, j < length patterns -> j <> i ->
                finditer (re_match (nth j patterns (Lit []))) content = []) ->
             in_source_order (sites patterns content)).
Proof.
  split; [apply extract_frontend_api_calls_sites|].
  split; [apply extract_backend_routes_files|].
  split; [apply (group_get_files key routes_dir [])|].
  intros patterns. split; [apply flat_map_concat_map|].
  split; [|apply sites_one_pattern].
  apply List.Forall_forall. intros r _. apply finditer_in_source_order.
Qed.

(** ** Texts without a match *)

Lemma sites_no_occurrence (patterns : list regex) (content : str) :
  no_occurrence patterns content = true -> sites patterns content = [].
Proof.
  unfold no_occurrence, sites. induction patterns as [|r patterns IH]; simpl.
  - reflexivity.
  - intros H. apply andb_true_iff in H as [Hr H]. apply negb_true_iff in Hr.
    rewrite (IH H), app_nil_r. apply finditer_from_no_match, Hr.
Qed.

Lemma fold_left_add_file_empty (routes_dir : list file) (routes : groups) :
  forallb (fun f => no_occurrence backend_patterns (content_of f)) routes_dir = true ->
  fold_left add_file routes_dir routes = routes.
Proof.
  revert routes. induction routes_dir as [|f l IH]; intros routes;
    cbn [forallb fold_left]; [reflexivity|].
  intros H. apply andb_true_iff in H as [Hf H].
  unfold add_file at 2, file_records. rewrite (sites_no_occurrence _ _ Hf).
  cbn [map add_records fold_left]. apply IH, H.
Qed.

(** C8: when no extraction pattern occurs in the text of a readable file,
    the frontend extractor returns the empty list and the backend
    extractor a grouping without records; neither raises. *)
Theorem extractors_empty_without_match (content : str) (routes_dir : list file) :
  no_occurrence frontend_patterns content = true ->
  forallb readable routes_dir = true ->
  forallb (fun f => no_occurrence backend_patterns (content_of f)) routes_dir = true ->
  extract_frontend_api_calls (Some content) = Ok []
  /\ extract_backend_routes routes_dir = Ok [].
Proof.
  intros Hf Hr Hb. split.
  - rewrite extract_frontend_api_calls_sites, (sites_no_occurrence _ _ Hf).
    reflexivity.
  - rewrite extract_backend_routes_files, Hr, (fold_left_add_file_empty _ _ Hb).
    reflexivity.
Qed.

Lemma extractors_empty_without_match_witness :
  extract_frontend_api_calls (Some plain_api) = Ok []
  /\ extract_backend_routes plain_routes = Ok [].
Proof.
  apply extractors_empty_without_match; reflexivity.
Defined.

(** ** The missing-backend test *)

Lemma substring_dec_spec (u s : str) : substring u s <-> str_in u s = true.
Proof. symmetry. apply str_in_spec. Qed.

(** C3, as stated, fails: with [':id'] taken out of both keys the backend
    key of [GET /users/:id/posts] is a prefix of the key of the call
    [GET /users/${userId}/posts/${postId}], but the program takes it out of
    one key at a time and does not find the call. *)
Lemma found_in_counterexample :
  route_key posts_call = txt "GET:users/:id/posts/:id"
  /\ found_in (route_key posts_call) (build_backend_set posts_routes) = false
  /\ exists backend_key,
       backend_key ∈ build_backend_set posts_routes
       /\ substring (replace (txt ":id") [] backend_key)
            (replace (txt ":id") [] (route_key posts_call)).
Proof.
  split; [reflexivity|]. split; [reflexivity|].
  exists (txt "GET:users/:id/posts"). split.
  - unfold build_backend_set, posts_routes. simpl. set_solver.
  - apply str_in_spec. reflexivity.
Qed.

(** C3, amended: a call with key [key] is found exactly when some key [b]
    of [backend_set] is [key] itself, or [b] without [':id'] occurs in
    [key] as it is, or [key] without [':id'] occurs in [b] as it is. *)
Theorem found_in_iff (key : str) (backend_set : gset str) :
  found_in key backend_set = true
  <-> exists b,
        b ∈ backend_set
        /\ (b = key
            \/ substring (replace (txt ":id") [] b) key
            \/ substring (replace (txt ":id") [] key) b).
Proof.
  unfold found_in. rewrite existsb_exists. split.
  - intros (b & Hb & H). exists b. split.
    + apply elem_of_elements, list_elem_of_In, Hb.
    + apply orb_true_iff in H as [H|H]; [left; apply str_eqb_spec, H|].
      apply orb_true_iff in H as [H|H]; apply str_in_spec in H; auto.
  - intros (b & Hb & H). exists b. split.
    + apply list_elem_of_In, elem_of_elements, Hb.
    + destruct H as [H|[H|H]].
      * apply str_eqb_spec in H. rewrite H. reflexivity.
      * apply str_in_spec in H. rewrite H. apply orb_true_iff. right. reflexivity.
      * apply str_in_spec in H. rewrite H. rewrite !orb_true_r. reflexivity.
Qed.

(** ** The report *)

Lemma build_backend_set_elem (x : str) (routes : groups) :
  x ∈ build_backend_set routes <-> In x (map route_key (all_routes routes)).
Proof.
  unfold build_backend_set, all_routes.
  assert (Hin : forall l (acc : gset str),
            x ∈ fold_left (fun set route => {[ route_key route ]} ∪ set) l acc
            <-> x ∈ acc \/ In x (map route_key l)).
  { induction l as [|r l IH]; intros acc; simpl.
    - split; [auto | intros [H|[]]; exact H].
    - rewrite IH, elem_of_union, elem_of_singleton. intuition. }
  assert (Hout : forall (acc : gset str),
            x ∈ fold_left (fun set g =>
                  fold_left (fun set route => {[ route_key route ]} ∪ set)
                    (snd g) set) routes acc
            <-> x ∈ acc \/ In x (map route_key (flat_map snd routes))).
  { induction routes as [|g routes IH]; intros acc; simpl.
    - split; [auto | intros [H|[]]; exact H].
    - rewrite IH, Hin, map_app, in_app_iff. tauto. }
  rewrite Hout. split; [intros [H|H]; [|exact H] | auto].
  apply not_elem_of_empty in H. destruct H.
Qed.

Lemma find_missing_backend_filter (frontend_calls : list RouteRecord)
    (backend_set : gset str) :
  find_missing_backend frontend_calls backend_set
  = missing_calls frontend_calls backend_set.
Proof.
  unfold find_missing_backend, missing_calls.
  assert (H : forall acc,
            fold_left (fun missing call =>
              if negb (found_in (route_key call) backend_set)
              then missing ++ [call] else missing) frontend_calls acc
            = acc ++ List.filter (fun call =>
                       negb (found_in (route_key call) backend_set))
                       frontend_calls).
  { induction frontend_calls as [|c l IH]; intros acc; simpl.
    - rewrite app_nil_r. reflexivity.
    - rewrite IH. destruct (found_in (route_key c) backend_set); simpl.
      + reflexivity.
      + rewrite <- app_assoc. reflexivity. }
  apply (H []).
Qed.

Lemma check_expectations_spec (frontend_calls : list RouteRecord)
    (backend_routes : groups) (routes : list str) (issues_found : bool)
    (report : list Verdict) :
  Forall (fun route => length (split1 ":"%char route) = 2) routes ->
  for_each routes (check_expectation frontend_calls backend_routes)
    (issues_found, report)
  = Ok (issues_found
        || negb (forallb satisfied
                   (map (verdict_of frontend_calls backend_routes) routes)),
        report ++ map (verdict_of frontend_calls backend_routes) routes).
Proof.
  intros Hw. revert issues_found report.
  induction Hw as [|route routes Hr Hw IH]; intros issues_found report.
  - simpl. rewrite orb_false_r, app_nil_r. reflexivity.
  - rewrite for_each_cons. unfold check_expectation at 1.
    rewrite (unpack2_ok _ Hr), bind_Ok. cbv beta iota zeta. rewrite bind_Ok.
    rewrite IH. cbn [map forallb]. rewrite <- app_assoc. f_equal. f_equal.
    change (satisfied (verdict_of frontend_calls backend_routes route))
      with (in_frontend (verdict_of frontend_calls backend_routes route)
            && in_backend (verdict_of frontend_calls backend_routes route)).
    change (frontend_has frontend_calls (nth 0 (split1 ":" route) [])
              (normalize_path (nth 1 (split1 ":" route) [])))
      with (in_frontend (verdict_of frontend_calls backend_routes route)).
    change (backend_has backend_routes (nth 0 (split1 ":" route) [])
              (normalize_path (nth 1 (split1 ":" route) [])))
      with (in_backend (verdict_of frontend_calls backend_routes route)).
    destruct (in_frontend _ && in_backend _); simpl.
    + reflexivity.
    + rewrite orb_true_r. reflexivity.
Qed.

Lemma check_features_from (features : list (str * list str))
    (frontend_calls : list RouteRecord) (backend_routes : groups)
    (issues_found : bool) (report : list Verdict) :
  Forall (fun route => length (split1 ":"%char route) = 2)
    (flat_map snd features) ->
  for_each features (fun feature st =>
    for_each (snd feature)
      (check_expectation frontend_calls backend_routes) st)
    (issues_found, report)
  = Ok (issues_found
        || negb (forallb satisfied
                   (map (verdict_of frontend_calls backend_routes)
                      (flat_map snd features))),
        report
        ++ map (verdict_of frontend_calls backend_routes)
             (flat_map snd features)).
Proof.
  revert issues_found report.
  induction features as [|feature features IH]; intros issues_found report Hw.
  - simpl. rewrite orb_false_r, app_nil_r. reflexivity.
  - cbn [flat_map] in *. apply List.Forall_app in Hw as [Hw1 Hw2].
    rewrite for_each_cons. cbv beta.
    rewrite (check_expectations_spec _ _ _ _ _ Hw1), bind_Ok, (IH _ _ Hw2).
    rewrite map_app, forallb_app, negb_andb, orb_assoc, app_assoc.
    reflexivity.
Qed.

Lemma v22_features_well_formed :
  Forall (fun route => length (split1 ":"%char route) = 2)
    (flat_map snd v22_features).
Proof. repeat constructor. Qed.

Lemma report_of_expected (backend_routes : groups)
    (frontend_calls : list RouteRecord) :
  report_of backend_routes frontend_calls
  = Ok (expected_report backend_routes frontend_calls).
Proof.
  unfold report_of, expected_report, check_features.
  rewrite find_missing_backend_filter.
  rewrite (check_features_from _ _ _ _ _ v22_features_well_formed), bind_Ok.
  cbv beta iota zeta. f_equal. f_equal.
  destruct (missing_calls _ _); [|reflexivity].
  cbn [orb]. rewrite negb_involutive. reflexivity.
Qed.

Lemma main_expected (routes_dir : list file) (api_file : option str) :
  main routes_dir api_file
  = if forallb readable routes_dir then
      match api_file with
      | Some content =>
          Ok (expected_report (fold_left add_file routes_dir [])
                (map (fun site => call_of (snd site))
                   (sites frontend_patterns content)))
      | None => Raise OSError
      end
    else Raise OSError.
Proof.
  unfold main. rewrite extract_backend_routes_files.
  destruct (forallb readable routes_dir); [|reflexivity]. rewrite bind_Ok.
  destruct api_file as [content|]; [|reflexivity].
  rewrite extract_frontend_api_calls_sites, bind_Ok. apply report_of_expected.
Qed.

Lemma forallb_satisfied (l : list Verdict) :
  forallb satisfied l = true
  <-> Forall (fun v => in_frontend v = true /\ in_backend v = true) l.
Proof.
  rewrite forallb_forall, List.Forall_forall. unfold satisfied.
  split; intros H v Hv; apply andb_true_iff, H, Hv.
Qed.

(** C1: when the routes directory and the frontend file are readable, the
    run ends with exit status 0 exactly when no frontend call is listed as
    lacking a backend route and every expectation of the feature table is
    met on both sides, and with exit status 1 otherwise. *)
Theorem exit_status_iff (routes_dir : list file) (content : str) :
  forallb readable routes_dir = true ->
  exists backend_routes frontend_calls rep,
    extract_backend_routes routes_dir = Ok backend_routes
    /\ extract_frontend_api_calls (Some content) = Ok frontend_calls
    /\ main routes_dir (Some content) = Ok rep
    /\ missing_backend rep
       = missing_calls frontend_calls (build_backend_set backend_routes)
    /\ verdicts rep
       = map (verdict_of frontend_calls backend_routes)
           (flat_map snd v22_features)
    /\ (exit_status rep = 0
        <-> missing_backend rep = []
            /\ Forall (fun v => in_frontend v = true /\ in_backend v = true)
                 (verdicts rep))
    /\ (exit_status rep <> 0 -> exit_status rep = 1).
Proof.
  intros Hr.
  exists (fold_left add_file routes_dir []),
    (map (fun site => call_of (snd site)) (sites frontend_patterns content)).
  eexists. split; [rewrite extract_backend_routes_files, Hr; reflexivity|].
  split; [apply extract_frontend_api_calls_sites|].
  split; [rewrite main_expected, Hr; reflexivity|].
  split; [reflexivity|]. split; [reflexivity|].
  unfold expected_report. cbn [missing_backend verdicts exit_status].
  rewrite <- forallb_satisfied.
  destruct (missing_calls _ _) as [|c missing].
  - destruct (forallb satisfied _); split.
    + split; auto.
    + intros H; congruence.
    + split; [discriminate | intros [_ H]; discriminate].
    + reflexivity.
  - split; [|reflexivity]. split; [discriminate | intros [H _]; discriminate].
Qed.

(** A run that passes: every feature route is declared and called. *)
Example investments_run_passes :
  exists rep,
    main [investments_routes] (Some investments_api) = Ok rep
    /\ missing_backend rep = []
    /\ forallb satisfied (verdicts rep) = true
    /\ exit_status rep = 0.
Proof. eexists. split; [reflexivity|]. repeat split. Qed.

Lemma exit_status_iff_witness :
  exists backend_routes frontend_calls rep,
    extract_backend_routes [investments_routes] = Ok backend_routes
    /\ extract_frontend_api_calls (Some investments_api) = Ok frontend_calls
    /\ main [investments_routes] (Some investments_api) = Ok rep
    /\ missing_backend rep
       = missing_calls frontend_calls (build_backend_set backend_routes)
    /\ verdicts rep
       = map (verdict_of frontend_calls backend_routes)
           (flat_map snd v22_features)
    /\ (exit_status rep = 0
        <-> missing_backend rep = []
            /\ Forall (fun v => in_frontend v = true /\ in_backend v = true)
                 (verdicts rep))
    /\ (exit_status rep <> 0 -> exit_status rep = 1).
Proof. apply exit_status_iff. reflexivity. Defined.

(** ** One route, one call *)

(** C2, as stated, fails: the run lists no missing backend route, but none
    of the five feature expectations is met and the exit status is 1. *)
Lemma one_route_exit_status_counterexample :
  extract_backend_routes [users_routes]
  = Ok [(txt "users.routes", [get_users])]
  /\ extract_frontend_api_calls (Some users_api) = Ok [get_users]
  /\ exists rep,
       main [users_routes] (Some users_api) = Ok rep
       /\ missing_backend rep = []
       /\ exit_status rep = 1.
Proof.
  split; [reflexivity|]. split; [reflexivity|].
  eexists. split; [reflexivity|]. split; reflexivity.
Qed.

(** C2, amended: for one route file declaring only [GET '/users'] and a
    frontend file with the single call [client.get('/users')], the run
    lists no missing backend route, finds none of the feature expectations
    on either side, and ends with exit status 1. *)
Theorem one_route_run (f : file) (api_file : option str) :
  extract_backend_routes [f] = Ok [(stem (name f), [get_users])] ->
  extract_frontend_api_calls api_file = Ok [get_users] ->
  exists rep,
    main [f] api_file = Ok rep
    /\ missing_backend rep = []
    /\ Forall (fun v => in_frontend v = false /\ in_backend v = false)
         (verdicts rep)
    /\ map expectation (verdicts rep) = flat_map snd v22_features
    /\ exit_status rep = 1.
Proof.
  intros Hb Hf. unfold main. rewrite Hb, Hf, !bind_Ok.
  eexists. split; [reflexivity|]. split; [reflexivity|].
  split; [|split; reflexivity].
  repeat constructor.
Qed.

Lemma one_route_run_witness :
  exists rep,
    main [users_routes] (Some users_api) = Ok rep
    /\ missing_backend rep = []
    /\ Forall (fun v => in_frontend v = false /\ in_backend v = false)
         (verdicts rep)
    /\ map expectation (verdicts rep) = flat_map snd v22_features
    /\ exit_status rep = 1.
Proof. apply (one_route_run users_routes); reflexivity. Defined.

(** ** The order of the route files *)

Lemma forallb_Permutation {A : Type} (f : A -> bool) (l l' : list A) :
  Permutation l l' -> forallb f l = forallb f l'.
Proof.
  induction 1 as [|x l l' _ IH|x y l|l l' l'' _ IH1 _ IH2]; simpl.
  - reflexivity.
  - rewrite IH. reflexivity.
  - rewrite !andb_assoc, (andb_comm (f y)). reflexivity.
  - congruence.
Qed.

Lemma existsb_Permutation {A : Type} (f : A -> bool) (l l' : list A) :
  Permutation l l' -> existsb f l = existsb f l'.
Proof.
  induction 1 as [|x l l' _ IH|x y l|l l' l'' _ IH1 _ IH2]; simpl.
  - reflexivity.
  - rewrite IH. reflexivity.
  - rewrite !orb_assoc, (orb_comm (f y)). reflexivity.
  - congruence.
Qed.

Lemma existsb_filter {A : Type} (p q : A -> bool) (l : list A) :
  existsb p (List.filter q l) = existsb (fun x => q x && p x) l.
Proof.
  induction l as [|x l IH]; simpl; [reflexivity|].
  destruct (q x); simpl; rewrite IH; reflexivity.
Qed.

Lemma backend_has_all_routes (backend_routes : groups) (method0 normalized : str) :
  backend_has backend_routes method0 normalized
  = existsb (fun r =>
      str_eqb (method r) method0
      && (str_in normalized (normalize_path (path r))
          || str_in (normalize_path (path r)) normalized))
      (all_routes backend_routes).
Proof.
  unfold backend_has, all_routes.
  induction backend_routes as [|g routes IH]; simpl; [reflexivity|].
  rewrite !existsb_app, IH, existsb_filter. reflexivity.
Qed.

(** The report depends on the groups through their records only, in any
    order. *)
Lemma expected_report_Permutation (backend_routes backend_routes' : groups)
    (frontend_calls : list RouteRecord) :
  Permutation (all_routes backend_routes) (all_routes backend_routes') ->
  expected_report backend_routes frontend_calls
  = expected_report backend_routes' frontend_calls.
Proof.
  intros Hp.
  assert (Hs : build_backend_set backend_routes
               = build_backend_set backend_routes').
  { apply leibniz_equiv, set_equiv. intros x.
    rewrite !build_backend_set_elem.
    split; apply Permutation_in, Permutation_map;
      [exact Hp | symmetry; exact Hp]. }
  assert (Hv : forall route,
            verdict_of frontend_calls backend_routes route
            = verdict_of frontend_calls backend_routes' route).
  { intros route. unfold verdict_of. cbv zeta. f_equal.
    rewrite !backend_has_all_routes. apply existsb_Permutation, Hp. }
  unfold expected_report. rewrite Hs, (map_ext _ _ Hv). reflexivity.
Qed.

(** C9: runs over the same files, listed in different orders, list the
    same missing calls, give the same verdicts and end with the same exit
    status; when a file cannot be read, both raise. *)
Theorem main_order_independent (routes_dir routes_dir' : list file)
    (api_file : option str) :
  Permutation routes_dir routes_dir' ->
  main routes_dir api_file = main routes_dir' api_file.
Proof.
  intros Hp. rewrite !main_expected, (forallb_Permutation _ _ _ Hp).
  destruct (forallb readable routes_dir'); [|reflexivity].
  destruct api_file as [content|]; [|reflexivity].
  f_equal. apply expected_report_Permutation.
  rewrite !all_routes_files. simpl. apply Permutation_flat_map, Hp.
Qed.

Lemma main_order_independent_witness :
  main [users_routes; investments_routes] (Some investments_api)
  = main [investments_routes; users_routes] (Some investments_api).
Proof. apply main_order_independent. apply perm_swap. Defined.

(** * Further properties *)

(** ** The extracted records *)

Section Captures.
Context {R : Type}.
Implicit Types k : str -> option R.

Lemma star_not_run c k s x :
  star_not c k s = Some x ->
  exists run s', s = run ++ s' /\ ~ In c run /\ k s' = Some x.
Proof.
  induction s as [|a s IH]; simpl.
  - intros H. exists [], []. auto.
  - destruct (Ascii.eqb_spec a c) as [->|Hne].
    + intros H. exists [], (c :: s). auto.
    + destruct (star_not c k s) as [y|] eqn:E.
      * intros [= ->]. destruct (IH eq_refl) as (run & s' & -> & Hrun & Hk).
        exists (a :: run), s'. split; [reflexivity|]. split; [|exact Hk].
        intros [H|H]; [congruence | exact (Hrun H)].
      * intros H. exists [], (a :: s). auto.
Qed.

Lemma plus_not_run c k s x :
  plus_not c k s = Some x ->
  exists run s', s = run ++ s' /\ run <> [] /\ ~ In c run /\ k s' = Some x.
Proof.
  unfold plus_not. destruct s as [|a s]; [discriminate|].
  destruct (Ascii.eqb_spec a c) as [->|Hne]; [discriminate|].
  intros H. apply star_not_run in H as (run & s' & -> & Hrun & Hk).
  exists (a :: run), s'. split; [reflexivity|]. split; [discriminate|].
  split; [|exact Hk]. intros [H|H]; [congruence | exact (Hrun H)].
Qed.

(** The method group captures the name it matched. *)
Lemma rm_methods caps s (k : list str -> str -> option R) x :
  rm methods caps s k = Some x ->
  exists l s', In l method_names /\ k (caps ++ [l]) s' = Some x.
Proof.
  unfold methods. cbn [rm alt].
  assert (Hlit : forall l,
            (if startswith l s
             then k (caps ++ [firstn (length s - length (skipn (length l) s)) s])
                    (skipn (length l) s)
             else None) = Some x ->
            exists s', k (caps ++ [l]) s' = Some x).
  { intros l H. destruct (startswith l s) eqn:E; [|discriminate].
    exists (skipn (length l) s). rewrite <- H. do 3 f_equal.
    pose proof (startswith_length _ _ E) as Hl.
    apply startswith_skipn in E. rewrite length_skipn.
    replace (length s - (length s - length l)) with (length l) by lia.
    rewrite E at 1. rewrite firstn_app, Nat.sub_diag, firstn_all. simpl.
    rewrite app_nil_r. reflexivity. }
  assert (Hor : forall (a b : option R),
            match a with Some y => Some y | None => b end = Some x ->
            a = Some x \/ b = Some x).
  { intros [y|] b H; auto. }
  intros H. unfold method_names.
  repeat (apply Hor in H as [H|H]; [apply Hlit in H as [s' H]|]).
  5: apply Hlit in H as [s' H].
  all: eexists _, s'; (split; [|exact H]); simpl; auto 10.
Qed.
End Captures.

Lemma firstn_run (run s' : str) :
  firstn (length (run ++ s') - length s') (run ++ s') = run.
Proof.
  rewrite length_app, Nat.add_sub, firstn_app, Nat.sub_diag, firstn_all.
  simpl. apply app_nil_r.
Qed.

Lemma re_match_plain (pre mid : str) (q : ascii) (s : str)
    (caps : list str) (n : nat) :
  re_match (cat [Lit pre; methods; Lit mid; Group (NotPlus q); Lit [q]]) s
  = Some (caps, n) ->
  groups_ok q caps.
Proof.
  unfold re_match. cbn [cat rm].
  destruct (startswith pre s); [|discriminate]. intros H.
  apply rm_methods in H as (l & s1 & Hl & H). cbv beta in H.
  destruct (startswith mid s1); [|discriminate].
  apply plus_not_run in H as (run & s2 & E & Hne & Hq & H).
  destruct (startswith [q] s2); [|discriminate].
  injection H as <- _. rewrite E, firstn_run.
  exists l, run. auto.
Qed.

Lemma re_match_typed (pre lt mid : str) (gt q : ascii) (s : str)
    (caps : list str) (n : nat) :
  re_match (cat [Lit pre; methods; Lit lt; NotPlus gt; Lit mid;
                 Group (NotPlus q); Lit [q]]) s
  = Some (caps, n) ->
  groups_ok q caps.
Proof.
  unfold re_match. cbn [cat rm].
  destruct (startswith pre s); [|discriminate]. intros H.
  apply rm_methods in H as (l & s1 & Hl & H). cbv beta in H.
  destruct (startswith lt s1); [|discriminate].
  apply plus_not_run in H as (_ & s2 & _ & _ & _ & H).
  destruct (startswith mid s2); [|discriminate].
  apply plus_not_run in H as (run & s3 & E & Hne & Hq & H).
  destruct (startswith [q] s3); [|discriminate].
  injection H as <- _. rewrite E, firstn_run.
  exists l, run. auto.
Qed.

(** Every match of a backend pattern, and of a frontend pattern, has a
    method name and a non-empty path free of the quote of its pattern. *)
Lemma backend_sites_groups (content : str) :
  Forall (fun site => groups_ok sq (snd site) \/ groups_ok dq (snd site))
    (sites backend_patterns content).
Proof.
  apply List.Forall_forall. intros site Hin. unfold sites in Hin.
  apply in_flat_map in Hin as (r & Hr & Hin).
  apply finditer_from_In in Hin as (t & n & Ht).
  destruct Hr as [<-|[<-|[]]]; apply re_match_plain in Ht; auto.
Qed.

Lemma frontend_sites_groups (content : str) :
  Forall (fun site => groups_ok sq (snd site) \/ groups_ok dq (snd site))
    (sites frontend_patterns content).
Proof.
  apply List.Forall_forall. intros site Hin. unfold sites in Hin.
  apply in_flat_map in Hin as (r & Hr & Hin).
  apply finditer_from_In in Hin as (t & n & Ht).
  destruct Hr as [<-|[<-|[<-|[<-|[]]]]];
    first [apply re_match_typed in Ht | apply re_match_plain in Ht]; auto.
Qed.

Lemma upper_method_name (l : str) :
  In l method_names -> In (upper l) http_methods.
Proof.
  intros H. repeat destruct H as [<-|H]; try destruct H;
    vm_compute; auto 10.
Qed.

Lemma lstrip_ws_suffix (s : str) : exists pre, s = pre ++ lstrip_ws s.
Proof.
  induction s as [|a s [pre IH]]; simpl.
  - exists []. reflexivity.
  - destruct (isspace a).
    + exists (a :: pre). simpl. congruence.
    + exists []. reflexivity.
Qed.

Lemma lstrip_ws_head (s : str) (a : ascii) (t : str) :
  lstrip_ws s = a :: t -> isspace a = false.
Proof.
  induction s as [|b s IH]; simpl; [discriminate|].
  destruct (isspace b) eqn:E; [exact IH|]. intros [= <- _]. exact E.
Qed.

(** A stripped text neither starts nor ends with whitespace, and has
    only characters of the text. *)
Lemma strip_ends (s : str) :
  (forall a t, strip s = a :: t -> isspace a = false)
  /\ (forall a t, strip s = t ++ [a] -> isspace a = false)
  /\ (forall c, In c (strip s) -> In c s).
Proof.
  unfold strip.
  destruct (lstrip_ws_suffix s) as [pre Hs].
  destruct (lstrip_ws_suffix (rev (lstrip_ws s))) as [w Hr].
  set (u := lstrip_ws s) in *. set (v := lstrip_ws (rev u)) in *.
  assert (Hu : u = rev v ++ rev w).
  { rewrite <- (rev_involutive u), Hr, rev_app_distr. reflexivity. }
  split; [|split].
  - intros a t E. apply (lstrip_ws_head s a (t ++ rev w)).
    fold u. rewrite Hu, E. reflexivity.
  - intros a t E. apply (lstrip_ws_head (rev u) a (rev t)). fold v.
    rewrite <- (rev_involutive v), E, rev_app_distr. reflexivity.
  - intros c Hc. rewrite Hs, Hu, !in_app_iff. auto.
Qed.

(** X1: every call the frontend extractor returns carries one of the
    five methods GET, POST, PUT, DELETE, PATCH in upper case, and a path
    that is not empty and is free of the single quote or free of the
    double quote (the one that closes it in the source). *)
Theorem frontend_calls_shape (api_file : option str) (calls : list RouteRecord) :
  extract_frontend_api_calls api_file = Ok calls ->
  Forall (fun c => http_method c /\ path c <> [] /\ quote_free (path c)) calls.
Proof.
  destruct api_file as [content|]; [|discriminate].
  rewrite extract_frontend_api_calls_sites. intros [= <-].
  apply List.Forall_map.
  eapply List.Forall_impl; [|apply frontend_sites_groups].
  intros site [H|H]; destruct H as (l & run & -> & Hl & Hne & Hq);
    (split; [apply upper_method_name, Hl|]); (split; [exact Hne|]);
    [left | right]; exact Hq.
Qed.

Lemma frontend_calls_shape_witness :
  Forall (fun c => http_method c /\ path c <> [] /\ quote_free (path c))
    [ {| method := txt "POST"; path := txt "/b" |};
      {| method := txt "GET"; path := txt "/a" |} ].
Proof. apply (frontend_calls_shape (Some mixed_api)). reflexivity. Defined.

Lemma file_records_shape (content : str) :
  Forall (fun r => http_method r /\ trimmed (path r) /\ quote_free (path r))
    (file_records content).
Proof.
  unfold file_records. apply List.Forall_map.
  eapply List.Forall_impl; [|apply backend_sites_groups].
  intros site [H|H]; destruct H as (l & run & -> & Hl & Hne & Hq);
    destruct (strip_ends run) as (H1 & H2 & H3);
    (split; [apply upper_method_name, Hl|]); (split; [split; assumption|]);
    [left | right]; intros Hin; apply Hq, H3, Hin.
Qed.

(** X2: every route of every group the backend extractor returns
    carries one of the five methods in upper case, and a path with no
    whitespace at either end that is free of the single quote or free of
    the double quote. *)
Theorem backend_routes_shape (routes_dir : list file) (routes : groups) :
  extract_backend_routes routes_dir = Ok routes ->
  Forall (fun g =>
    Forall (fun r => http_method r /\ trimmed (path r) /\ quote_free (path r))
      (snd g)) routes.
Proof.
  rewrite extract_backend_routes_files.
  destruct (forallb readable routes_dir); [|discriminate]. intros [= <-].
  assert (H : Forall (fun r => http_method r /\ trimmed (path r)
                               /\ quote_free (path r))
                (all_routes (fold_left add_file routes_dir []))).
  { eapply Permutation_Forall; [symmetry; apply all_routes_files|].
    simpl. apply List.Forall_flat_map, List.Forall_forall.
    intros f _. apply file_records_shape. }
  unfold all_routes in H. apply List.Forall_flat_map in H. exact H.
Qed.

Lemma backend_routes_shape_witness :
  Forall (fun g =>
    Forall (fun r => http_method r /\ trimmed (path r) /\ quote_free (path r))
      (snd g))
    [ (txt "mixed.routes",
       [ {| method := txt "POST"; path := txt "/b" |};
         {| method := txt "GET"; path := txt "/a" |} ]) ].
Proof. apply (backend_routes_shape [mixed_routes]). reflexivity. Defined.

(** ** The backend groups *)

Lemma group_append_keys (k : str) (r : RouteRecord) (routes : groups) :
  map fst (group_append k r routes)
  = if existsb (str_eqb k) (map fst routes) then map fst routes
    else map fst routes ++ [k].
Proof.
  induction routes as [|[k0 v] routes IH]; simpl; [reflexivity|].
  destruct (str_eqb_reflect k0 k) as [->|Hne].
  - rewrite str_eqb_refl. reflexivity.
  - simpl. rewrite IH.
    destruct (str_eqb_reflect k k0) as [->|_]; [congruence|]. simpl.
    destruct (existsb (str_eqb k) (map fst routes)); reflexivity.
Qed.

Lemma existsb_str_eqb (k : str) (l : list str) :
  existsb (str_eqb k) l = true <-> In k l.
Proof.
  rewrite existsb_exists. split.
  - intros (x & Hx & E). apply str_eqb_spec in E. congruence.
  - intros H. exists k. split; [exact H | apply str_eqb_refl].
Qed.

Lemma group_append_invariant (k : str) (r : RouteRecord) (routes : groups) :
  NoDup (map fst routes) /\ Forall (fun g => snd g <> []) routes ->
  NoDup (map fst (group_append k r routes))
  /\ Forall (fun g => snd g <> []) (group_append k r routes).
Proof.
  intros [Hk Hg]. split.
  - rewrite group_append_keys.
    destruct (existsb (str_eqb k) (map fst routes)) eqn:E; [exact Hk|].
    apply NoDup_app. split; [exact Hk|]. split.
    + intros x Hx Hx'. apply list_elem_of_In in Hx. apply list_elem_of_In in Hx'.
      destruct Hx' as [<-|[]]. apply existsb_str_eqb in Hx. congruence.
    + apply NoDup_singleton.
  - induction Hg as [|[k0 v] routes Hv Hg IH]; simpl.
    + repeat constructor. discriminate.
    + apply NoDup_cons in Hk as [_ Hk].
      destruct (str_eqb k0 k); constructor; auto.
      simpl. destruct v; discriminate.
Qed.

(** X3: in the grouping the backend extractor returns no two groups
    have the same key and no group is empty: a file in which no pattern
    matches creates no group. *)
Theorem backend_groups_invariant (routes_dir : list file) (routes : groups) :
  extract_backend_routes routes_dir = Ok routes ->
  NoDup (map fst routes) /\ Forall (fun g => snd g <> []) routes.
Proof.
  rewrite extract_backend_routes_files.
  destruct (forallb readable routes_dir); [|discriminate]. intros [= <-].
  assert (H : forall l (acc : groups),
            NoDup (map fst acc) /\ Forall (fun g => snd g <> []) acc ->
            NoDup (map fst (fold_left add_file l acc))
            /\ Forall (fun g => snd g <> []) (fold_left add_file l acc)).
  { induction l as [|f l IH]; intros acc Hacc; [exact Hacc|].
    simpl. apply IH. unfold add_file, add_records.
    generalize (file_records (content_of f)). intros rs. revert acc Hacc.
    induction rs as [|r rs IHr]; intros acc Hacc; [exact Hacc|].
    simpl. apply IHr, group_append_invariant, Hacc. }
  apply H. split; constructor.
Qed.

(** ** The keys of the groups *)

Lemma endswith_spec (suffix s : str) :
  endswith suffix s = true <-> exists b, s = b ++ suffix.
Proof.
  unfold endswith. rewrite startswith_spec. split.
  - intros [t H]. exists (rev t).
    rewrite <- (rev_involutive s), H, rev_app_distr, rev_involutive. reflexivity.
  - intros [b ->]. exists (rev b). apply rev_app_distr.
Qed.

Lemma rfind_dot_none (t : str) :
  ~ In "."%char t -> rfind_dot t = None.
Proof.
  induction t as [|a t IH]; simpl; [reflexivity|]. intros H.
  rewrite IH by auto.
  destruct (Ascii.eqb_spec a ".") as [->|_]; [|reflexivity].
  destruct H. left. reflexivity.
Qed.

Lemma rfind_dot_last (s t : str) :
  ~ In "."%char t -> rfind_dot (s ++ "."%char :: t) = Some (length s).
Proof.
  intros H. induction s as [|a s IH]; simpl.
  - rewrite (rfind_dot_none t H). reflexivity.
  - rewrite IH. reflexivity.
Qed.

(** The key of a file named [b.routes.ts] is [b.routes]. *)
Lemma stem_routes_ts (b : str) :
  stem (b ++ txt ".routes.ts") = b ++ txt ".routes".
Proof.
  unfold stem.
  change (b ++ txt ".routes.ts")
    with (b ++ txt ".routes" ++ "."%char :: txt "ts").
  rewrite app_assoc, rfind_dot_last.
  - set (base := b ++ txt ".routes").
    assert (Hb : 0 < length base).
    { unfold base. rewrite length_app. simpl. lia. }
    rewrite length_app. simpl length.
    destruct (0 <? length base) eqn:E1; [|apply Nat.ltb_ge in E1; lia].
    destruct (S (length base) <? length base + 3) eqn:E2;
      [|apply Nat.ltb_ge in E2; lia].
    simpl. rewrite firstn_app, Nat.sub_diag, firstn_all. simpl.
    apply app_nil_r.
  - simpl. intros [H|[H|[]]]; discriminate.
Qed.

Lemma stem_name (nm : str) :
  endswith (txt ".routes.ts") nm = true -> stem nm ++ txt ".ts" = nm.
Proof.
  intros H. apply endswith_spec in H as [b ->].
  rewrite stem_routes_ts, <- app_assoc. reflexivity.
Qed.

Lemma group_get_other_files (f : file) (l : list file) :
  Forall (fun g => endswith (txt ".routes.ts") (name g) = true) (f :: l) ->
  ~ In (name f) (map name l) ->
  flat_map (fun g => if str_eqb (stem (name g)) (stem (name f))
                     then file_records (content_of g) else []) l = [].
Proof.
  intros Hg Hf. apply List.Forall_cons_iff in Hg as [Hnf Hg].
  induction Hg as [|g l Hng Hg IH]; [reflexivity|]. simpl.
  destruct (str_eqb_reflect (stem (name g)) (stem (name f))) as [E|_].
  - destruct Hf. left. rewrite <- (stem_name _ Hng), E. apply stem_name, Hnf.
  - apply IH. intros H. apply Hf. right. exact H.
Qed.

(** X4: when every route file can be read, the names all end in
    [.routes.ts] and no two are equal, the extraction succeeds and the
    group of a file's stem holds exactly the routes this file yields when
    it is scanned alone; the stem is the name without its [.ts]. *)
Theorem route_file_group (routes_dir : list file) (f : file) :
  forallb readable routes_dir = true ->
  forallb (fun g => endswith (txt ".routes.ts") (name g)) routes_dir = true ->
  NoDup (map name routes_dir) ->
  In f routes_dir ->
  exists routes alone,
    extract_backend_routes routes_dir = Ok routes
    /\ extract_backend_routes [f] = Ok alone
    /\ group_get (stem (name f)) routes = group_get (stem (name f)) alone
    /\ stem (name f) ++ txt ".ts" = name f.
Proof.
  intros Hr Hn Hd Hf.
  assert (Hrf : readable f = true).
  { rewrite forallb_forall in Hr. apply Hr, Hf. }
  rewrite forallb_forall in Hn. pose proof (Hn f Hf) as Hnf.
  apply List.Forall_forall in Hn.
  exists (fold_left add_file routes_dir []), (fold_left add_file [f] []).
  rewrite !extract_backend_routes_files, Hr. simpl forallb. rewrite Hrf.
  split; [reflexivity|]. split; [reflexivity|]. split; [|apply stem_name, Hnf].
  rewrite !group_get_files. simpl. rewrite str_eqb_refl, app_nil_r.
  clear Hr. induction routes_dir as [|g l IH]; [destruct Hf|].
  simpl in Hd. apply NoDup_cons in Hd as [Hg Hd].
  rewrite list_elem_of_In in Hg.
  pose proof (List.Forall_inv_tail Hn) as Hn'.
  simpl. destruct Hf as [->|Hf].
  - rewrite str_eqb_refl, (group_get_other_files f l Hn Hg), app_nil_r.
    reflexivity.
  - destruct (str_eqb_reflect (stem (name g)) (stem (name f))) as [E|_].
    + destruct Hg. apply in_map_iff. exists f. split; [|exact Hf].
      rewrite <- (stem_name _ Hnf), <- E.
      apply stem_name. exact (List.Forall_inv Hn).
    + apply IH; assumption.
Qed.

Lemma route_file_group_witness :
  exists routes alone,
    extract_backend_routes [users_routes; investments_routes] = Ok routes
    /\ extract_backend_routes [users_routes] = Ok alone
    /\ group_get (stem (name users_routes)) routes
       = group_get (stem (name users_routes)) alone
    /\ stem (name users_routes) ++ txt ".ts" = name users_routes.
Proof.
  apply route_file_group; [reflexivity | reflexivity | | left; reflexivity].
  apply NoDup_cons. split; [|apply NoDup_singleton].
  intros H. apply list_elem_of_In in H. destruct H as [H|[]]. discriminate H.
Defined.

Lemma backend_groups_invariant_witness :
  NoDup (map fst [(txt "users.routes", [get_users])])
  /\ Forall (fun g => snd g <> []) [(txt "users.routes", [get_users])].
Proof. apply (backend_groups_invariant [users_routes]). reflexivity. Defined.

(** ** Errors of a run *)


(** ** The backend key set and the missing-backend check *)

(** X6: [backend_set] holds exactly the keys [METHOD:normalized path]
    of the routes of the groups. *)
Theorem build_backend_set_keys (backend_routes : groups) (key : str) :
  key ∈ build_backend_set backend_routes
  <-> exists g r, In g backend_routes /\ In r (snd g) /\ key = route_key r.
Proof.
  rewrite build_backend_set_elem, in_map_iff. unfold all_routes. split.
  - intros (r & <- & Hr). apply in_flat_map in Hr as (g & Hg & Hr). eauto.
  - intros (g & r & Hg & Hr & ->). exists r. split; [reflexivity|].
    apply in_flat_map. eauto.
Qed.






Lemma missing_calls_empty (frontend_calls : list RouteRecord) :
  missing_calls frontend_calls (build_backend_set []) = frontend_calls.
Proof.
  unfold missing_calls.
  induction frontend_calls as [|c l IH]; [reflexivity|].
  simpl. rewrite IH. reflexivity.
Qed.

(** X9: when the backend extractor finds no route at all, the run
    lists every frontend call as missing, in the order of extraction, and
    ends with exit status 1. *)
Theorem run_without_routes (routes_dir : list file) (api_file : option str)
    (frontend_calls : list RouteRecord) :
  extract_backend_routes routes_dir = Ok [] ->
  extract_frontend_api_calls api_file = Ok frontend_calls ->
  exists rep,
    main routes_dir api_file = Ok rep
    /\ missing_backend rep = frontend_calls
    /\ exit_status rep = 1.
Proof.
  intros Hb Hf. unfold main. rewrite Hb, Hf, !bind_Ok, report_of_expected.
  eexists. split; [reflexivity|]. unfold expected_report.
  cbn [missing_backend exit_status]. rewrite missing_calls_empty.
  split; [reflexivity|]. destruct frontend_calls; reflexivity.
Qed.

Lemma run_without_routes_witness :
  exists rep,
    main plain_routes (Some users_api) = Ok rep
    /\ missing_backend rep = [get_users]
    /\ exit_status rep = 1.
Proof. apply run_without_routes; reflexivity. Defined.

Lemma frontend_has_method (frontend_calls : list RouteRecord)
    (method0 normalized : str) :
  frontend_has frontend_calls method0 normalized = true ->
  exists c, In c frontend_calls /\ method c = method0.
Proof.
  unfold frontend_has. rewrite existsb_exists. intros (c & Hc & _).
  apply filter_In in Hc as [Hc Hm]. apply str_eqb_spec in Hm. eauto.
Qed.

Lemma backend_has_method (backend_routes : groups) (method0 normalized : str) :
  backend_has backend_routes method0 normalized = true ->
  exists g r, In g backend_routes /\ In r (snd g) /\ method r = method0.
Proof.
  unfold backend_has. rewrite existsb_exists. intros (r & Hr & _).
  apply in_flat_map in Hr as (g & Hg & Hr).
  apply filter_In in Hr as [Hr Hm]. apply str_eqb_spec in Hm. eauto.
Qed.

(** X8: a run ends with exit status 0 only if the frontend issues at
    least one POST, one GET and one PUT call and the backend declares at
    least one POST, one GET and one PUT route. *)
Theorem exit_status_0_needs_methods (routes_dir : list file)
    (api_file : option str) (rep : Report) :
  main routes_dir api_file = Ok rep ->
  exit_status rep = 0 ->
  exists backend_routes frontend_calls,
    extract_backend_routes routes_dir = Ok backend_routes
    /\ extract_frontend_api_calls api_file = Ok frontend_calls
    /\ forall m, In m feature_methods ->
         (exists c, In c frontend_calls /\ method c = m)
         /\ (exists g r, In g backend_routes /\ In r (snd g) /\ method r = m).
Proof.
  rewrite main_expected, extract_backend_routes_files.
  destruct (forallb readable routes_dir); [|discriminate].
  destruct api_file as [content|]; [|discriminate].
  rewrite extract_frontend_api_calls_sites. intros [= <-] H0.
  eexists _, _. split; [reflexivity|]. split; [reflexivity|].
  unfold expected_report in H0. cbn [exit_status] in H0.
  destruct (missing_calls _ _); [|discriminate].
  destruct (forallb satisfied _) eqn:Hs; [clear H0|discriminate].
  rewrite forallb_forall in Hs.
  assert (Hr : forall route,
            In route (flat_map snd v22_features) ->
            (exists c, In c (map (fun site => call_of (snd site))
                               (sites frontend_patterns content))
                       /\ method c = nth 0 (split1 ":"%char route) [])
            /\ (exists g r, In g (fold_left add_file routes_dir [])
                            /\ In r (snd g)
                            /\ method r = nth 0 (split1 ":"%char route) [])).
  { intros route Hin. specialize (Hs _ (in_map _ _ _ Hin)).
    unfold satisfied, verdict_of in Hs. cbn [in_frontend in_backend] in Hs.
    apply andb_true_iff in Hs as [Hf Hb].
    split; [eapply frontend_has_method, Hf | eapply backend_has_method, Hb]. }
  intros m [<-|[<-|[<-|[]]]].
  - apply (Hr (txt "POST:/investments/:id/boost/takara")). simpl. auto.
  - apply (Hr (txt "GET:/investments/:id/boost/takara")). simpl. auto.
  - apply (Hr (txt "PUT:/investments/:id/instant-sale")). simpl. auto.
Qed.

Lemma exit_status_0_needs_methods_witness :
  exists backend_routes frontend_calls,
    extract_backend_routes [investments_routes] = Ok backend_routes
    /\ extract_frontend_api_calls (Some investments_api) = Ok frontend_calls
    /\ forall m, In m feature_methods ->
         (exists c, In c frontend_calls /\ method c = m)
         /\ (exists g r, In g backend_routes /\ In r (snd g) /\ method r = m).
Proof.
  eapply (exit_status_0_needs_methods [investments_routes] (Some investments_api));
    reflexivity.
Defined.

Lemma startswith_app (p t : str) : startswith p (p ++ t) = true.
Proof. apply startswith_spec. exists t. reflexivity. Qed.

Lemma str_in_startswith (u s : str) :
  startswith u s = true -> str_in u s = true.
Proof. intros H. destruct s; simpl; rewrite H; reflexivity. Qed.

(** X10: a backend route whose path normalizes to the empty path,
    such as ['/'], makes the missing-backend check find every frontend
    call of its method, whatever the path of the call. *)
Theorem root_route_masks_method (backend_routes : groups)
    (g : str * list RouteRecord) (r call : RouteRecord) :
  In g backend_routes -> In r (snd g) ->
  In (method r) http_methods ->
  normalize_path (path r) = [] ->
  method call = method r ->
  found_in (route_key call) (build_backend_set backend_routes) = true.
Proof.
  intros Hg Hr Hm Hp Hc. unfold found_in. apply existsb_exists.
  exists (route_key r). split.
  - apply list_elem_of_In, elem_of_elements, build_backend_set_elem, in_map.
    unfold all_routes. apply in_flat_map. eauto.
  - apply orb_true_iff. right. apply orb_true_iff. left.
    unfold route_key. rewrite Hp, Hc.
    assert (E : replace (txt ":id") [] (method r ++ txt ":" ++ [])
                = method r ++ txt ":").
    { unfold http_methods in Hm.
      repeat destruct Hm as [<-|Hm]; try destruct Hm; reflexivity. }
    rewrite E, app_assoc. apply str_in_startswith, startswith_app.
Qed.

Lemma root_route_masks_method_witness :
  found_in (route_key orders_call) (build_backend_set root_routes) = true.
Proof.
  apply (root_route_masks_method root_routes
           (txt "users.routes", [ {| method := txt "GET"; path := txt "/" |} ])
           {| method := txt "GET"; path := txt "/" |}).
  - left. reflexivity.
  - left. reflexivity.
  - left. reflexivity.
  - reflexivity.
  - reflexivity.
Defined.

(** ** The shape of a normalized path *)

Lemma sub_colon_colons (s pre post : str) :
  sub_colon s = pre ++ ":"%char :: post -> after_colon post.
Proof.
  revert pre post.
  induction s as [| a s Hmiss IH | s v n Hhit Hn IH]
    using (scan_ind _ colon_proper); intros pre post.
  - destruct pre; discriminate.
  - unfold sub_colon, re_sub in *. rewrite gsub_miss by exact Hmiss.
    destruct pre as [|b pre]; simpl.
    + intros [= -> <-]. rewrite re_colon_direct in Hmiss.
      apply colon_at_none_inv in Hmiss as [H|H]; [discriminate|].
      apply sub_colon_head in H. unfold sub_colon, re_sub in H.
      destruct H as [H|H]; [left | right; left]; exact H.
    + intros [= _ H]. exact (IH _ _ H).
  - unfold sub_colon, re_sub in *. rewrite (gsub_hit _ _ _ v n Hhit Hn).
    rewrite re_colon_direct in Hhit. apply colon_at_some in Hhit.
    apply sub_colon_head in Hhit. unfold sub_colon, re_sub in Hhit.
    set (z := gsub (re_match re_colon) (txt ":id") (skipn n s)) in *.
    change (txt ":id" ++ z) with (":"%char :: "i"%char :: "d"%char :: z).
    destruct pre as [|c1 [|c2 [|c3 pre]]]; simpl; intros H; try discriminate.
    + injection H as <-. destruct Hhit as [->|Hz].
      * right. right. left. reflexivity.
      * right. right. right. destruct z as [|c z]; [discriminate|].
        simpl in Hz. apply andb_true_iff in Hz as [Hz _].
        apply Ascii.eqb_eq in Hz as <-. reflexivity.
    + injection H as _ _ _ H. exact (IH _ _ H).
Qed.

(** X11: a normalized path contains no template placeholder
    [${...}], and each of its colons is followed by nothing, by ['/'], or
    by [id] at the end of the path or in front of a ['/']. *)
Theorem normalize_path_shape (p : str) :
  has_match (re_match re_template) (normalize_path p) = false
  /\ forall pre post,
       normalize_path p = pre ++ ":"%char :: post -> after_colon post.
Proof.
  rewrite normalize_path_steps. split.
  - apply sub_colon_template_free, sub_template_free.
  - intros pre post. apply sub_colon_colons.
Qed.

(** ** The printed inventory *)

Lemma ljust_method (m : str) :
  In m http_methods -> length (ljust 6 m) = 6.
Proof.
  intros H. repeat destruct H as [<-|H]; try destruct H; reflexivity.
Qed.

Lemma ljust_method_inj (m1 m2 : str) :
  In m1 http_methods -> In m2 http_methods ->
  ljust 6 m1 = ljust 6 m2 -> m1 = m2.
Proof.
  intros H1 H2.
  repeat destruct H1 as [<-|H1]; try destruct H1;
    repeat destruct H2 as [<-|H2]; try destruct H2;
    intros E; try reflexivity; discriminate E.
Qed.

(** X13: for a record with one of the five methods, the method
    fills a column of exactly six characters in its inventory line and in
    its missing-call line, the path follows at column 11 and at column
    10, and two such records printed as the same line are equal. *)
Theorem printed_lines_columns (r : RouteRecord) :
  In (method r) http_methods ->
  (firstn 6 (skipn 4 (route_line r)) = ljust 6 (method r)
   /\ skipn 11 (route_line r) = path r)
  /\ (firstn 6 (skipn 3 (missing_line r)) = ljust 6 (method r)
      /\ skipn 10 (missing_line r) = path r)
  /\ forall r', In (method r') http_methods ->
       route_line r = route_line r' \/ missing_line r = missing_line r' ->
       r = r'.
Proof.
  intros Hm.
  assert (Hcol : forall x, In (method x) http_methods ->
            (firstn 6 (skipn 4 (route_line x)) = ljust 6 (method x)
             /\ skipn 11 (route_line x) = path x)
            /\ (firstn 6 (skipn 3 (missing_line x)) = ljust 6 (method x)
                /\ skipn 10 (missing_line x) = path x)).
  { intros x Hx. pose proof (ljust_method _ Hx) as Hlx.
    unfold route_line, missing_line.
    generalize dependent (ljust 6 (method x)). intros l Hl6.
    do 7 (destruct l as [|? l]; try discriminate Hl6).
    repeat split; reflexivity. }
  destruct (Hcol r Hm) as [[H1 H2] [H3 H4]]. repeat split; try assumption.
  intros r' Hm' E. destruct (Hcol r' Hm') as [[H1' H2'] [H3' H4']].
  assert (Hr : ljust 6 (method r) = ljust 6 (method r') /\ path r = path r').
  { destruct E as [E|E]; rewrite E in *; split; congruence. }
  destruct Hr as [Hl Hp]. apply ljust_method_inj in Hl; [|assumption|assumption].
  destruct r, r'. simpl in *. congruence.
Qed.

Lemma printed_lines_columns_witness :
  (firstn 6 (skipn 4 (route_line get_users)) = ljust 6 (method get_users)
   /\ skipn 11 (route_line get_users) = path get_users)
  /\ (firstn 6 (skipn 3 (missing_line get_users)) = ljust 6 (method get_users)
      /\ skipn 10 (missing_line get_users) = path get_users)
  /\ forall r', In (method r') http_methods ->
       route_line get_users = route_line r'
       \/ missing_line get_users = missing_line r' ->
       get_users = r'.
Proof. apply printed_lines_columns. left. reflexivity. Defined.

(** ** The order of the keys *)

Lemma nat_of_ascii_inj (x y : ascii) :
  nat_of_ascii x = nat_of_ascii y -> x = y.
Proof.
  intros H. rewrite <- (ascii_nat_embedding x), <- (ascii_nat_embedding y), H.
  reflexivity.
Qed.

Lemma str_ltb_cons (x y : ascii) (a b : str) :
  str_ltb (x :: a) (y :: b) = true
  <-> nat_of_ascii x < nat_of_ascii y \/ (x = y /\ str_ltb a b = true).
Proof.
  simpl. rewrite orb_true_iff, andb_true_iff, Nat.ltb_lt, Nat.eqb_eq. split.
  - intros [H|[H H']]; [left; exact H|right]. split; [|exact H'].
    apply nat_of_ascii_inj, H.
  - intros [H|[-> H]]; [left; exact H|right; split; [reflexivity|exact H]].
Qed.

Lemma str_ltb_irrefl (a : str) : str_ltb a a = false.
Proof.
  induction a as [|x a IH]; [reflexivity|]. simpl.
  rewrite Nat.ltb_irrefl, Nat.eqb_refl. exact IH.
Qed.

Lemma str_ltb_trans (a b c : str) :
  str_ltb a b = true -> str_ltb b c = true -> str_ltb a c = true.
Proof.
  revert b c. induction a as [|x a IH]; intros [|y b] [|z c]; try discriminate;
    try reflexivity.
  rewrite !str_ltb_cons. intros [H1|[-> H1]] [H2|[-> H2]].
  - left. lia.
  - left. exact H1.
  - left. exact H2.
  - right. split; [reflexivity|]. exact (IH _ _ H1 H2).
Qed.

Lemma str_ltb_total (a b : str) :
  a <> b -> str_ltb a b = false -> str_ltb b a = true.
Proof.
  revert b. induction a as [|x a IH]; intros [|y b] Hne H; try discriminate;
    try reflexivity; [congruence|].
  apply str_ltb_cons. simpl in H.
  apply orb_false_iff in H as [H1 H2]. apply Nat.ltb_ge in H1.
  destruct (Nat.eq_dec (nat_of_ascii x) (nat_of_ascii y)) as [E|E].
  - right. apply nat_of_ascii_inj in E as ->. split; [reflexivity|].
    rewrite Nat.eqb_refl in H2. apply IH; [congruence|exact H2].
  - left. lia.
Qed.

(** ** [sorted] over groups with different keys *)

Lemma insert_item_Permutation (g : str * list RouteRecord) (l : groups) :
  Permutation (insert_item g l) (g :: l).
Proof.
  induction l as [|h t IH]; simpl; [reflexivity|].
  destruct (str_ltb (fst h) (fst g)); [|reflexivity].
  rewrite IH. apply perm_swap.
Qed.

Lemma sorted_items_Permutation (routes : groups) :
  Permutation (sorted_items routes) routes.
Proof.
  induction routes as [|g l IH]; simpl; [reflexivity|].
  rewrite insert_item_Permutation, IH. reflexivity.
Qed.

Lemma insert_item_sorted (g : str * list RouteRecord) (l : groups) :
  StronglySorted key_lt l -> ~ In (fst g) (map fst l) ->
  StronglySorted key_lt (insert_item g l).
Proof.
  induction 1 as [|h t Ht IH Hh]; intros Hg; simpl.
  - repeat constructor.
  - destruct (str_ltb (fst h) (fst g)) eqn:E.
    + constructor.
      * apply IH. intros H. apply Hg. right. exact H.
      * eapply Permutation_Forall; [symmetry; apply insert_item_Permutation|].
        constructor; [exact E|exact Hh].
    + assert (Hgh : key_lt g h).
      { apply str_ltb_total; [|exact E]. intros H. apply Hg. left. exact H. }
      constructor; [constructor; assumption|].
      constructor; [exact Hgh|].
      eapply List.Forall_impl; [|exact Hh].
      intros x Hx. exact (str_ltb_trans _ _ _ Hgh Hx).
Qed.

Lemma sorted_items_sorted (routes : groups) :
  NoDup (map fst routes) -> StronglySorted key_lt (sorted_items routes).
Proof.
  induction routes as [|g l IH]; intros Hk; simpl; [constructor|].
  apply NoDup_cons in Hk as [Hg Hk]. apply insert_item_sorted; [exact (IH Hk)|].
  intros H. apply Hg, list_elem_of_In.
  eapply Permutation_in; [|exact H].
  apply Permutation_map, sorted_items_Permutation.
Qed.

Lemma sorted_unique (l1 l2 : groups) :
  StronglySorted key_lt l1 -> StronglySorted key_lt l2 ->
  Permutation l1 l2 -> l1 = l2.
Proof.
  intros H1. revert l2. induction H1 as [|h1 t1 Ht1 IH Hh1]; intros l2 H2 Hp.
  - apply Permutation_nil in Hp. congruence.
  - destruct H2 as [|h2 t2 Ht2 Hh2].
    + symmetry in Hp. apply Permutation_nil in Hp. discriminate.
    + assert (E : h1 = h2).
      { assert (I1 : In h1 (h2 :: t2)) by (eapply Permutation_in; [exact Hp|left; reflexivity]).
        assert (I2 : In h2 (h1 :: t1)).
        { eapply Permutation_in; [symmetry; exact Hp|left; reflexivity]. }
        destruct I1 as [I1|I1]; [congruence|].
        destruct I2 as [I2|I2]; [congruence|].
        rewrite List.Forall_forall in Hh1, Hh2.
        pose proof (str_ltb_trans _ _ _ (Hh1 _ I2) (Hh2 _ I1)) as C.
        rewrite str_ltb_irrefl in C. discriminate. }
      subst h2. f_equal. apply IH; [exact Ht2|].
      eapply Permutation_cons_inv, Hp.
Qed.

Lemma sorted_items_Permutation_eq (l l' : groups) :
  NoDup (map fst l) -> Permutation l l' -> sorted_items l = sorted_items l'.
Proof.
  intros Hk Hp. apply sorted_unique.
  - apply sorted_items_sorted, Hk.
  - apply sorted_items_sorted. rewrite <- (Permutation_map fst Hp). exact Hk.
  - rewrite !sorted_items_Permutation. exact Hp.
Qed.

(** ** Groups as a function of their keys *)

Lemma group_get_In (g : str * list RouteRecord) (routes : groups) :
  NoDup (map fst routes) -> In g routes -> group_get (fst g) routes = snd g.
Proof.
  induction routes as [|[k v] l IH]; intros Hk Hg; [destruct Hg|].
  simpl in Hk. apply NoDup_cons in Hk as [Hn Hk]. simpl.
  destruct Hg as [<-|Hg]; simpl.
  - rewrite str_eqb_refl. reflexivity.
  - destruct (str_eqb_reflect k (fst g)) as [->|_]; [|exact (IH Hk Hg)].
    destruct Hn. apply list_elem_of_In, in_map, Hg.
Qed.

Lemma In_group_get (k : str) (routes : groups) :
  group_get k routes <> [] -> In (k, group_get k routes) routes.
Proof.
  induction routes as [|[k0 v] l IH]; simpl; [congruence|].
  destruct (str_eqb_reflect k0 k) as [->|_]; [left; reflexivity|].
  intros H. right. exact (IH H).
Qed.

Lemma groups_Permutation (l l' : groups) :
  NoDup (map fst l) -> NoDup (map fst l') ->
  Forall (fun g => snd g <> []) l -> Forall (fun g => snd g <> []) l' ->
  (forall k, group_get k l = group_get k l') ->
  Permutation l l'.
Proof.
  intros Hk Hk' Hn Hn' Hget.
  assert (Hin : forall a b : groups, NoDup (map fst a) ->
            Forall (fun g => snd g <> []) a ->
            (forall k, group_get k a = group_get k b) ->
            forall g, In g a -> In g b).
  { intros a b Ha Hna Hab [k v] Hg.
    pose proof (group_get_In _ _ Ha Hg) as E. simpl in E.
    rewrite List.Forall_forall in Hna. specialize (Hna _ Hg). simpl in Hna.
    rewrite <- E, Hab. apply In_group_get. rewrite <- Hab, E. exact Hna. }
  apply NoDup_Permutation.
  - eapply NoDup_fmap_1, Hk.
  - eapply NoDup_fmap_1, Hk'.
  - intros g. rewrite !list_elem_of_In. split; eapply Hin; eauto.
Qed.

Lemma file_groups_Permutation (key : str) (l l' : list file) :
  Permutation l l' ->
  NoDup (map (fun f => stem (name f)) l) ->
  flat_map (fun f => if str_eqb (stem (name f)) key
                     then file_records (content_of f) else []) l
  = flat_map (fun f => if str_eqb (stem (name f)) key
                       then file_records (content_of f) else []) l'.
Proof.
  induction 1 as [|x l l' Hp IH|x y l|l l' l'' Hp IH Hp' IH']; intros Hk.
  - reflexivity.
  - simpl. f_equal. apply IH. simpl in Hk. apply NoDup_cons in Hk as [_ Hk].
    exact Hk.
  - simpl. simpl in Hk. apply NoDup_cons in Hk as [Hy _].
    destruct (str_eqb_reflect (stem (name y)) key) as [Ey|_];
      destruct (str_eqb_reflect (stem (name x)) key) as [Ex|_];
      try reflexivity.
    destruct Hy. rewrite Ey, <- Ex. left.
  - rewrite IH by exact Hk. apply IH'.
    rewrite <- (Permutation_map (fun f => stem (name f)) Hp). exact Hk.
Qed.

Lemma fold_add_file_invariant (routes_dir : list file) (acc : groups) :
  NoDup (map fst acc) /\ Forall (fun g => snd g <> []) acc ->
  NoDup (map fst (fold_left add_file routes_dir acc))
  /\ Forall (fun g => snd g <> []) (fold_left add_file routes_dir acc).
Proof.
  revert acc. induction routes_dir as [|f l IH]; intros acc Hacc; [exact Hacc|].
  simpl. apply IH. unfold add_file, add_records.
  generalize (file_records (content_of f)). intros r. revert acc Hacc.
  induction r as [|x r IHr]; intros acc Hacc; [exact Hacc|].
  simpl. apply IHr, group_append_invariant, Hacc.
Qed.

(** X12: when the stems of the route files differ, listing the
    files in another order yields the same groups up to their order, and
    the inventory of lines 107-111 is printed the same, line for line. *)
Theorem inventory_order_independent (routes_dir routes_dir' : list file)
    (routes : groups) :
  Permutation routes_dir routes_dir' ->
  NoDup (map (fun f => stem (name f)) routes_dir) ->
  extract_backend_routes routes_dir = Ok routes ->
  exists routes',
    extract_backend_routes routes_dir' = Ok routes'
    /\ Permutation routes routes'
    /\ inventory_lines routes' = inventory_lines routes.
Proof.
  intros Hp Hk. rewrite !extract_backend_routes_files.
  rewrite <- (forallb_Permutation _ _ _ Hp).
  destruct (forallb readable routes_dir); [|discriminate].
  intros [= <-]. eexists. split; [reflexivity|].
  assert (Hnil : NoDup (map fst ([] : groups))
                 /\ Forall (fun g => snd g <> []) ([] : groups)).
  { split; constructor. }
  destruct (fold_add_file_invariant routes_dir [] Hnil) as [H1 H2].
  destruct (fold_add_file_invariant routes_dir' [] Hnil) as [H1' H2'].
  assert (P : Permutation (fold_left add_file routes_dir [])
                (fold_left add_file routes_dir' [])).
  { apply groups_Permutation; try assumption.
    intros k. rewrite !group_get_files. simpl.
    apply file_groups_Permutation; assumption. }
  split; [exact P|]. unfold inventory_lines.
  rewrite (sorted_items_Permutation_eq _ _ H1 P). reflexivity.
Qed.

Lemma inventory_order_independent_witness :
  exists routes',
    extract_backend_routes [investments_routes; users_routes] = Ok routes'
    /\ Permutation
         [(txt "users.routes", file_records (content_of users_routes));
          (txt "investments.routes",
           file_records (content_of investments_routes))] routes'
    /\ inventory_lines routes'
       = inventory_lines
           [(txt "users.routes", file_records (content_of users_routes));
            (txt "investments.routes",
             file_records (content_of investments_routes))].
Proof.
  apply (inventory_order_independent [users_routes; investments_routes]).
  - apply perm_swap.
  - apply NoDup_cons. split; [|apply NoDup_singleton].
    intros H. apply list_elem_of_In in H. destruct H as [H|[]].
    vm_compute in H. discriminate H.
  - vm_compute. reflexivity.
Defined.

(** X14: the inventory visits every group exactly once, in
    strictly increasing order of the keys; no two keys tie, so [sorted]
    never gets to compare two lists of routes. *)
Theorem inventory_sorted (routes_dir : list file) (routes : groups) :
  extract_backend_routes routes_dir = Ok routes ->
  Permutation (sorted_items routes) routes
  /\ StronglySorted key_lt (sorted_items routes).
Proof.
  rewrite extract_backend_routes_files.
  destruct (forallb readable routes_dir); [|discriminate].
  intros [= <-]. split; [apply sorted_items_Permutation|].
  apply sorted_items_sorted.
  apply (fold_add_file_invariant routes_dir []). split; constructor.
Qed.

Lemma inventory_sorted_witness :
  Permutation
    (sorted_items [(txt "users.routes", file_records (content_of users_routes));
          (txt "investments.routes",
           file_records (content_of investments_routes))])
    [(txt "users.routes", file_records (content_of users_routes));
          (txt "investments.routes",
           file_records (content_of investments_routes))]
  /\ StronglySorted key_lt
       (sorted_items [(txt "users.routes", file_records (content_of users_routes));
          (txt "investments.routes",
           file_records (content_of investments_routes))]).
Proof.
  apply (inventory_sorted [users_routes; investments_routes]).
  vm_compute. reflexivity.
Defined.

(** ** The printed counts *)

Lemma routes_found_all_routes (routes : groups) :
  routes_found routes = length (all_routes routes).
Proof.
  unfold routes_found, all_routes.
  induction routes as [|g l IH]; simpl; [reflexivity|].
  rewrite length_app, IH. reflexivity.
Qed.

Lemma size_le_length (X : gset str) (l : list str) :
  (forall x, x ∈ X -> In x l) -> size X <= length l.
Proof.
  intros H. apply submseteq_length, NoDup_submseteq; [apply NoDup_elements|].
  intros x Hx. apply list_elem_of_In, H, elem_of_elements, Hx.
Qed.

(** X15: the count printed as [Backend routes found] is the total
    number of pattern matches in the route files, and the number of
    distinct keys in [backend_set] never exceeds it. *)
Theorem routes_found_total (routes_dir : list file) (routes : groups) :
  extract_backend_routes routes_dir = Ok routes ->
  routes_found routes
  = list_sum (map (fun f => length (sites backend_patterns (content_of f)))
                routes_dir)
  /\ size (build_backend_set routes) <= routes_found routes.
Proof.
  rewrite extract_backend_routes_files.
  destruct (forallb readable routes_dir); [|discriminate]. intros [= <-].
  rewrite routes_found_all_routes. split.
  - rewrite (Permutation_length (all_routes_files routes_dir [])). simpl.
    induction routes_dir as [|f l IH]; simpl; [reflexivity|].
    rewrite length_app, IH. unfold file_records. rewrite length_map.
    reflexivity.
  - rewrite <- (length_map route_key). apply size_le_length.
    intros x. apply build_backend_set_elem.
Qed.

Lemma routes_found_total_witness :
  routes_found [(txt "mixed.routes",
       [ {| method := txt "POST"; path := txt "/b" |};
         {| method := txt "GET"; path := txt "/a" |} ])]
  = list_sum (map (fun f => length (sites backend_patterns (content_of f)))
                [mixed_routes])
  /\ size (build_backend_set [(txt "mixed.routes",
       [ {| method := txt "POST"; path := txt "/b" |};
         {| method := txt "GET"; path := txt "/a" |} ])])
     <= routes_found [(txt "mixed.routes",
       [ {| method := txt "POST"; path := txt "/b" |};
         {| method := txt "GET"; path := txt "/a" |} ])].
Proof. apply (routes_found_total [mixed_routes]). reflexivity. Defined.
